(** * headposeimg: the two-stage head-pose sample driver

    A shallow embedding of [main] of [headposeimg.c].  The program is a
    command-line driver around the VAAL inference library: it parses its
    flags, creates a pose session, probes for a face-detection session,
    walks over the images given on the command line and prints one line per
    detected face (two-stage mode) or per image (single-stage mode).

    The library is external.  Its calls are modelled as transitions of an
    abstract [World]; the driver is a function from the command line and a
    world to an outcome, the list of events it produced, and the final
    world.  The command line is given as [getopt_long] delivers it: the
    options in the order of its calls, then the positional arguments. *)

From Stdlib Require Import ZArith List String Ascii Bool Lia.
From Stdlib Require Import Floats.SpecFloat.
Import ListNotations.

Local Open Scope Z_scope.
Local Open Scope string_scope.
Local Open Scope list_scope.

(** ** C scalar types

    [int], [int32_t], [int64_t] are [Z]; [size_t] counters are [nat].
    [float] and [double] are IEEE 754 binary32 and binary64 values, both
    carried by [spec_float] and kept canonical for their own format. *)

Module CFloat.

Definition prec32 : Z := 24.
Definition emax32 : Z := 128.
Definition prec64 : Z := 53.
Definition emax64 : Z := 1024.

(** Implicit conversion [float] to [double] (exact). *)
Definition double_of_float (x : spec_float) : spec_float :=
  match x with
  | S754_finite s m e => binary_round prec64 emax64 s m e
  | _ => x
  end.

(** Conversion [double] to [float] on assignment (round to nearest even). *)
Definition float_of_double (x : spec_float) : spec_float :=
  match x with
  | S754_finite s m e => binary_round prec32 emax32 s m e
  | _ => x
  end.

(** Conversion of an [int] to [float], as in [(float) w]. *)
Definition float_of_int (n : Z) : spec_float :=
  binary_normalize prec32 emax32 n 0 false.

(** Conversion of an [int] to [double]. *)
Definition double_of_int (n : Z) : spec_float :=
  binary_normalize prec64 emax64 n 0 false.

(** The cast [(int32_t) x]: truncation toward zero.  C leaves the cast
    undefined for NaN, infinities and values out of range; the model
    gives 0 for the first two and the unwrapped integer otherwise. *)
Definition int_of_float (x : spec_float) : Z :=
  match x with
  | S754_finite s m e =>
      cond_Zopp s
        (match e with
         | Zneg p => Z.shiftr (Zpos m) (Zpos p)
         | _ => Z.shiftl (Zpos m) e
         end)
  | _ => 0
  end.

Definition fmul (x y : spec_float) : spec_float := SFmul prec32 emax32 x y.

(** The literals [0.0f], [0.5f] and [1.0f]. *)
Definition f0_0 : spec_float := S754_zero false.
Definition f0_5 : spec_float := S754_finite false 8388608 (-24).
Definition f1_0 : spec_float := S754_finite false 8388608 (-23).

End CFloat.
Import CFloat.

(** ** Structures of [vaal.h] used by the driver *)

(** Modelled from the spec: [VAALBox] is declared in a header that is not
    part of the sources.  The fields are those [main] reads, which the
    spec lists as four normalized coordinates and a confidence score. *)
Record VAALBox := mkBox {
  xmin : spec_float;
  ymin : spec_float;
  xmax : spec_float;
  ymax : spec_float;
  score : spec_float
}.

(** Modelled from the spec: [VAALEuler] is declared in the same header; the
    spec describes it as a yaw/pitch/roll triple, the fields [main]
    prints. *)
Record VAALEuler := mkEuler {
  yaw : spec_float;
  pitch : spec_float;
  roll : spec_float
}.

(** What [calloc] hands out: all bits zero. *)
Definition zero_box : VAALBox := mkBox f0_0 f0_0 f0_0 f0_0 f0_0.
Definition zero_euler : VAALEuler := mkEuler f0_0 f0_0 f0_0.

(** The two [VAALContext*] variables of [main]. *)
Inductive Ctx := pose_ctx | faces_ctx.

(** The three heap buffers of [main]. *)
Inductive Buffer := boxes_buf | orientations_buf | roi_buf.

(** The exit statuses of [stdlib.h]. *)
Definition EXIT_SUCCESS : Z := 0.
Definition EXIT_FAILURE : Z := 1.

(** ** Macros of the missing header *)

(** Modelled from the spec: the macro [MAX] comes from a header that is not
    part of the sources.  The spec calls its use on [--max_detection] a
    "minimum enforced floor": the larger of the two operands. *)
Definition MAX (a b : Z) : Z := if a >? b then a else b.

(** Modelled from the spec: the macro [CLAMP] comes from a header that is not
    part of the sources.  The spec says the thresholds are "clamped" into
    the range given by the two bounds: the lower bound below it, the upper
    bound above it, the value itself otherwise.  The operands are compared
    as [double]s, to which C promotes the [float] bounds. *)
Definition CLAMP (x lo hi : spec_float) : spec_float :=
  if SFltb x lo then lo else if SFltb hi x then hi else x.

(** ** What the program prints

    [printf] and [fprintf] calls are recorded with their arguments, not
    with the formatted text. *)
Inductive Message :=
| USAGE
| MsgVersion (version : string)
| MsgUnsupportedNorm (optarg : string)
| MsgInvalidParameter (opt : ascii)
| MsgMissingModel
| MsgFailedLoadModel (reason : string)
| MsgFoundFaceModel
| MsgUnableToLocate
| MsgBoxHeader
| MsgResolution (w h : Z)
| MsgFailedLoad (image reason : string)
| MsgFailedRun (reason : string)
| MsgDecodeFailed
| MsgBoxLine (j : nat) (percent : Z) (box : VAALBox) (e : VAALEuler)
| MsgPose (load_ns inference_ns pose_ns : Z) (e : VAALEuler).

(** ** Events

    Every output and every call that creates, configures, feeds, runs,
    reads or releases a resource leaves an event.  The pure queries
    ([vaal_clock_now], [vaal_image_file_resolution], [vaal_strerror],
    [vaal_version]) leave none. *)
Inductive Event :=
| EvStdout (m : Message)
| EvStderr (m : Message)
| EvCalloc (b : Buffer) (nmemb : Z)
| EvContextCreate (engine : string)
| EvLoadModel (c : Ctx) (model : string) (err : Z)
| EvSetI (c : Ctx) (name : string) (v : Z)
| EvSetF (c : Ctx) (name : string) (v : spec_float)
| EvProbe (engine : string) (found : bool)
| EvLoadImage (c : Ctx) (image : string) (roi : option (Z * Z * Z * Z)) (err : Z)
| EvRunModel (c : Ctx) (err : Z)
| EvBoxes (c : Ctx) (max_boxes : Z) (err : Z) (num_boxes : nat)
| EvEuler (c : Ctx) (err : Z)
| EvRelease (c : Ctx)
| EvFree (b : Buffer).

(** ** The C library and the inference library *)

(** [atoi] and [atof] of the C library. *)
Class Libc := {
  atoi : string -> Z;
  atof : string -> spec_float
}.

(** The part of VAAL the driver calls.  A call may change the world (the
    sessions, the file system, the clock), and returns what the C call
    returns or stores through its pointer arguments.

    - [vaal_model_probe] answers [true] for a session, [false] for [NULL];
    - [vaal_image_file_resolution] answers the error and the contents of
      [w] and [h] after the call;
    - [vaal_boxes] receives the buffer, its capacity and the current
      [num_boxes], and answers the error, the boxes it writes from index 0
      on and [num_boxes] after the call;
    - [vaal_euler] likewise for the one-element [orientations] buffer. *)
Class VAAL (World : Type) := {
  VAAL_IMAGE_PROC_UNSIGNED_NORM : Z;
  VAAL_IMAGE_PROC_WHITENING : Z;
  VAAL_IMAGE_PROC_SIGNED_NORM : Z;
  VAAL_IMAGE_PROC_IMAGENET : Z;
  vaal_version : string;
  vaal_strerror : Z -> string;
  vaal_clock_now : World -> Z * World;
  vaal_context_create : string -> World -> World;
  vaal_load_model_file : Ctx -> string -> World -> Z * World;
  vaal_parameter_seti : Ctx -> string -> Z -> World -> World;
  vaal_parameter_setf : Ctx -> string -> spec_float -> World -> World;
  vaal_model_probe : string -> World -> bool * World;
  vaal_image_file_resolution : string -> World -> (Z * Z * Z) * World;
  vaal_load_image_file :
    Ctx -> string -> option (Z * Z * Z * Z) -> World -> Z * World;
  vaal_run_model : Ctx -> World -> Z * World;
  vaal_boxes :
    Ctx -> list VAALBox -> Z -> nat -> World -> (Z * list VAALBox * nat) * World;
  vaal_euler :
    Ctx -> VAALEuler -> nat -> World -> (Z * VAALEuler * nat) * World;
  vaal_context_release : Ctx -> World -> World
}.

(** ** The driver monad

    A computation runs in a world and ends in one of three ways: it goes
    on with a value, it leaves [main] through a [return] with an exit
    status, or it reads outside a buffer. *)
Inductive Outcome (A : Type) :=
| Next (a : A)
| Return (status : Z)
| Fault.
Arguments Next {A} a.
Arguments Return {A} status.
Arguments Fault {A}.

Definition M (World A : Type) : Type :=
  World -> Outcome A * list Event * World.

Section Monad.
Context {World : Type}.

Definition ret {A} (a : A) : M World A := fun w => (Next a, [], w).

Definition bind {A B} (m : M World A) (k : A -> M World B) : M World B :=
  fun w =>
    match m w with
    | (Next a, t, w1) =>
        let '(r, t', w2) := k a w1 in (r, t ++ t', w2)
    | (Return c, t, w1) => (Return c, t, w1)
    | (Fault, t, w1) => (Fault, t, w1)
    end.

(** [return status;] inside [main]. *)
Definition exit {A} (status : Z) : M World A := fun w => (Return status, [], w).

Definition fault {A} : M World A := fun w => (Fault, [], w).

Definition emit (e : Event) : M World unit := fun w => (Next tt, [e], w).

(** A library call together with the event that records it. *)
Definition call {A} (f : World -> A * World) (ev : A -> list Event) : M World A :=
  fun w => let '(a, w') := f w in (Next a, ev a, w').

Definition call_ (f : World -> World) (ev : Event) : M World unit :=
  fun w => (Next tt, [ev], f w).
End Monad.

Declare Scope drv_scope.
Delimit Scope drv_scope with drv.
Notation "x <- m ;; k" := (bind m (fun x => k))
  (at level 61, m at next level, right associativity) : drv_scope.
Notation "' p <- m ;; k" := (bind m (fun x => match x with p => k end))
  (at level 61, p pattern, m at next level, right associativity) : drv_scope.
Notation "m ;; k" := (bind m (fun _ => k))
  (at level 61, right associativity) : drv_scope.
Local Open Scope drv_scope.

Definition outcome_of {W A} (x : Outcome A * list Event * W) : Outcome A := fst (fst x).
Definition trace_of {W A} (x : Outcome A * list Event * W) : list Event := snd (fst x).
Definition world_of {W A} (x : Outcome A * list Event * W) : W := snd x.

(** ** The variables of [main] *)

(** The variables set by the option loop (lines 61-68), with the values
    they have after it. *)
Record Config := mkConfig {
  max_detection : Z;
  score_thr : spec_float;
  iou_thr : spec_float;
  engine : string;
  norm : Z;
  face_detect : bool
}.

Definition initial_config : Config :=
  mkConfig 25 f0_5 f0_5 "npu" 0 true.

Definition set_max_detection (cfg : Config) (v : Z) : Config :=
  mkConfig v (score_thr cfg) (iou_thr cfg) (engine cfg) (norm cfg) (face_detect cfg).
Definition set_score_thr (cfg : Config) (v : spec_float) : Config :=
  mkConfig (max_detection cfg) v (iou_thr cfg) (engine cfg) (norm cfg) (face_detect cfg).
Definition set_iou_thr (cfg : Config) (v : spec_float) : Config :=
  mkConfig (max_detection cfg) (score_thr cfg) v (engine cfg) (norm cfg) (face_detect cfg).
Definition set_engine (cfg : Config) (v : string) : Config :=
  mkConfig (max_detection cfg) (score_thr cfg) (iou_thr cfg) v (norm cfg) (face_detect cfg).
Definition set_norm (cfg : Config) (v : Z) : Config :=
  mkConfig (max_detection cfg) (score_thr cfg) (iou_thr cfg) (engine cfg) v (face_detect cfg).
Definition set_face_detect (cfg : Config) (v : bool) : Config :=
  mkConfig (max_detection cfg) (score_thr cfg) (iou_thr cfg) (engine cfg) (norm cfg) v.

(** The buffers and counters the image loop works on (lines 144-148).
    [orientations] has one element; [roi] is overwritten before each use
    and is a local value of the box loop in the model. *)
Record Locals := mkLocals {
  boxes : list VAALBox;
  num_boxes : nat;
  orientations : VAALEuler;
  num_orientations : nat
}.

(** The boxes a call writes land at the start of the caller's buffer, whose
    size stays what [calloc] made it. *)
Fixpoint store_boxes (written buf : list VAALBox) : list VAALBox :=
  match written, buf with
  | b :: written', _ :: buf' => b :: store_boxes written' buf'
  | _, _ => buf
  end.

(** The state after the three [calloc] calls of lines 146-148. *)
Definition initial_locals (cfg : Config) : Locals :=
  mkLocals (repeat zero_box (Z.to_nat (max_detection cfg))) 0 zero_euler 0.

(** ** The driver *)

Section Driver.
Context {World : Type} {libc : Libc} {lib : VAAL World}.

Local Abbreviation M := (M World).

(** *** Calls *)

Definition printf (m : Message) : M unit := emit (EvStdout m).
Definition fprintf_stderr (m : Message) : M unit := emit (EvStderr m).
(** [calloc] is taken to succeed, as [main] does not test its result. *)
Definition calloc (b : Buffer) (nmemb : Z) : M unit := emit (EvCalloc b nmemb).
Definition free (b : Buffer) : M unit := emit (EvFree b).

Definition clock_now : M Z := call vaal_clock_now (fun _ => []).

Definition context_create (e : string) : M unit :=
  call_ (vaal_context_create e) (EvContextCreate e).

Definition load_model_file (c : Ctx) (model : string) : M Z :=
  call (vaal_load_model_file c model) (fun err => [EvLoadModel c model err]).

Definition parameter_seti (c : Ctx) (name : string) (v : Z) : M unit :=
  call_ (vaal_parameter_seti c name v) (EvSetI c name v).

Definition parameter_setf (c : Ctx) (name : string) (v : spec_float) : M unit :=
  call_ (vaal_parameter_setf c name v) (EvSetF c name v).

Definition model_probe (e : string) : M bool :=
  call (vaal_model_probe e) (fun found => [EvProbe e found]).

Definition image_file_resolution (image : string) : M (Z * Z * Z) :=
  call (vaal_image_file_resolution image) (fun _ => []).

Definition load_image_file (c : Ctx) (image : string)
    (roi : option (Z * Z * Z * Z)) : M Z :=
  call (vaal_load_image_file c image roi)
       (fun err => [EvLoadImage c image roi err]).

Definition run_model (c : Ctx) : M Z :=
  call (vaal_run_model c) (fun err => [EvRunModel c err]).

(** [vaal_boxes(c, boxes, max_boxes, &num_boxes)]: the error is the
    result, the buffer and the counter are updated in the locals. *)
Definition get_boxes (c : Ctx) (max_boxes : Z) (st : Locals) : M (Z * Locals) :=
  fun w =>
    let '(err, b, n, w') := vaal_boxes c (boxes st) max_boxes (num_boxes st) w in
    (Next (err, mkLocals (store_boxes b (boxes st)) n
                         (orientations st) (num_orientations st)),
     [EvBoxes c max_boxes err n], w').

(** [vaal_euler(c, orientations, &num_orientations)]. *)
Definition get_euler (c : Ctx) (st : Locals) : M (Z * Locals) :=
  fun w =>
    let '(err, o, n, w') := vaal_euler c (orientations st) (num_orientations st) w in
    (Next (err, mkLocals (boxes st) (num_boxes st) o n), [EvEuler c err], w').

Definition context_release (c : Ctx) : M unit :=
  call_ (vaal_context_release c) (EvRelease c).

(** [boxes[j]]: a read outside the buffer is a fault. *)
Definition read_box (st : Locals) (j : nat) : M VAALBox :=
  match nth_error (boxes st) j with
  | Some b => ret b
  | None => fault
  end.

(** A [for] loop over the elements of [l] that threads the locals. *)
Fixpoint for_each {A S : Type} (l : list A) (body : A -> S -> M S) (s : S) : M S :=
  match l with
  | [] => ret s
  | a :: l' => s' <- body a s ;; for_each l' body s'
  end.

(** *** Lines 82-134: the option loop

    [getopt_long] belongs to the C library.  The model receives what its
    successive calls return before the final [-1]: the option character
    and the contents of [optarg] at that call. *)

Definition option_case (opt : ascii) (optarg : string) (cfg : Config) : M Config :=
  if (opt =? "h")%char then
    printf USAGE ;; exit EXIT_SUCCESS
  else if (opt =? "v")%char then
    printf (MsgVersion vaal_version) ;; exit EXIT_SUCCESS
  else if (opt =? "m")%char then
    ret (set_max_detection cfg (MAX (atoi optarg) 1))
  else if (opt =? "t")%char then
    ret (set_score_thr cfg
           (float_of_double
              (CLAMP (atof optarg) (double_of_float f0_0) (double_of_float f1_0))))
  else if (opt =? "u")%char then
    ret (set_iou_thr cfg
           (float_of_double
              (CLAMP (atof optarg) (double_of_float f0_0) (double_of_float f1_0))))
  else if (opt =? "n")%char then
    if optarg =? "raw" then ret (set_norm cfg 0)
    else if optarg =? "signed" then ret (set_norm cfg VAAL_IMAGE_PROC_SIGNED_NORM)
    else if optarg =? "unsigned" then ret (set_norm cfg VAAL_IMAGE_PROC_UNSIGNED_NORM)
    else if optarg =? "whitening" then ret (set_norm cfg VAAL_IMAGE_PROC_WHITENING)
    else if optarg =? "imagenet" then ret (set_norm cfg VAAL_IMAGE_PROC_IMAGENET)
    else fprintf_stderr (MsgUnsupportedNorm optarg) ;; exit EXIT_FAILURE
  else if (opt =? "e")%char then
    ret (set_engine cfg optarg)
  else if (opt =? "d")%char then
    ret (set_face_detect cfg false)
  else
    fprintf_stderr (MsgInvalidParameter opt) ;; exit EXIT_FAILURE.

Fixpoint options_loop (opts : list (ascii * string)) (cfg : Config) : M Config :=
  match opts with
  | [] => ret cfg
  | (opt, optarg) :: rest =>
      cfg' <- option_case opt optarg cfg ;; options_loop rest cfg'
  end.

(** *** Lines 197-238: the body of the box loop *)

Definition box_body (image : string) (w h : Z) (j : nat) (st : Locals) : M Locals :=
  box <- read_box st j ;;
  let roi := (int_of_float (fmul (xmin box) (float_of_int w)),
              int_of_float (fmul (ymin box) (float_of_int h)),
              int_of_float (fmul (xmax box) (float_of_int w)),
              int_of_float (fmul (ymax box) (float_of_int h))) in
  start <- clock_now ;;
  err <- load_image_file pose_ctx image (Some roi) ;;
  if negb (err =? 0)%Z then
    fprintf_stderr (MsgFailedLoad image (vaal_strerror err)) ;; exit EXIT_FAILURE
  else
    now <- clock_now ;;
    let load_ns := now - start in
    start <- clock_now ;;
    err <- run_model pose_ctx ;;
    now <- clock_now ;;
    let inference_ns := now - start in
    if negb (err =? 0)%Z then
      fprintf_stderr (MsgFailedRun (vaal_strerror err)) ;; exit EXIT_FAILURE
    else
      '(err, st') <- get_euler pose_ctx st ;;
      if negb (err =? 0)%Z then
        fprintf_stderr MsgDecodeFailed ;; exit 1
      else
        printf (MsgBoxLine j (int_of_float (fmul (score box) (float_of_int 100)))
                  box (orientations st')) ;;
        ret st'.

(** *** Lines 181-238: an image in two-stage mode

    The results of [vaal_image_file_resolution], of the face session's
    [vaal_run_model] and of [vaal_boxes] are stored in [err] and
    overwritten or dropped without a test. *)
Definition two_stage (cfg : Config) (image : string) (st : Locals) : M Locals :=
  printf MsgBoxHeader ;;
  '(_, w, h) <- image_file_resolution image ;;
  printf (MsgResolution w h) ;;
  err <- load_image_file faces_ctx image None ;;
  if negb (err =? 0)%Z then
    fprintf_stderr (MsgFailedLoad image (vaal_strerror err)) ;; exit EXIT_FAILURE
  else
    _ <- run_model faces_ctx ;;
    '(_, st1) <- get_boxes faces_ctx (max_detection cfg) st ;;
    for_each (seq 0 (num_boxes st1)) (box_body image w h) st1.

(** *** Lines 239-274: an image in single-stage mode *)
Definition single_stage (image : string) (st : Locals) : M Locals :=
  start <- clock_now ;;
  err <- load_image_file pose_ctx image None ;;
  if negb (err =? 0)%Z then
    fprintf_stderr (MsgFailedLoad image (vaal_strerror err)) ;; exit EXIT_FAILURE
  else
    now <- clock_now ;;
    let load_ns := now - start in
    start <- clock_now ;;
    err <- run_model pose_ctx ;;
    now <- clock_now ;;
    let inference_ns := now - start in
    if negb (err =? 0)%Z then
      fprintf_stderr (MsgFailedRun (vaal_strerror err)) ;; exit EXIT_FAILURE
    else
      start <- clock_now ;;
      '(err, st') <- get_euler pose_ctx st ;;
      if negb (err =? 0)%Z then
        fprintf_stderr MsgDecodeFailed ;; exit 1
      else
        now <- clock_now ;;
        let pose_ns := now - start in
        printf (MsgPose load_ns inference_ns pose_ns (orientations st')) ;;
        ret st'.

(** *** Lines 176-275: the body of the image loop *)
Definition image_body (cfg : Config) (fd : bool) (image : string) (st : Locals) : M Locals :=
  if fd then two_stage cfg image st else single_stage image st.

(** *** Lines 158-173: the face-detection probe

    The result is the value of [face_detect] after the block. *)
Definition probe_faces (cfg : Config) : M bool :=
  if face_detect cfg then
    found <- model_probe (engine cfg) ;;
    if found then
      printf MsgFoundFaceModel ;;
      let faces_norm := 0 in
      parameter_seti faces_ctx "max_detection" (max_detection cfg) ;;
      parameter_setf faces_ctx "score_threshold" (score_thr cfg) ;;
      parameter_setf faces_ctx "iou_threshold" (iou_thr cfg) ;;
      parameter_seti faces_ctx "normalization" faces_norm ;;
      ret true
    else
      printf MsgUnableToLocate ;;
      ret false
  else ret false.

(** *** Lines 277-285: the end of [main] *)
Definition shutdown (fd : bool) : M unit :=
  (if fd then context_release faces_ctx else ret tt) ;;
  context_release pose_ctx ;;
  free boxes_buf ;;
  free orientations_buf ;;
  free roi_buf ;;
  exit EXIT_SUCCESS.

(** *** Lines 143-173: buffers and sessions

    The result is the value of [face_detect] when the image loop starts. *)
Definition startup (cfg : Config) (model : string) : M bool :=
  calloc boxes_buf (max_detection cfg) ;;
  calloc orientations_buf 1 ;;
  calloc roi_buf 4 ;;
  context_create (engine cfg) ;;
  err <- load_model_file pose_ctx model ;;
  if negb (err =? 0)%Z then
    fprintf_stderr (MsgFailedLoadModel (vaal_strerror err)) ;; exit EXIT_FAILURE
  else
    parameter_seti pose_ctx "normalization" (norm cfg) ;;
    probe_faces cfg.

(** *** Lines 136-285: [main] after the option loop

    [positional] is [argv[optind .. argc-1]]. *)
Definition run (cfg : Config) (positional : list string) : M unit :=
  match positional with
  | [] =>
      fprintf_stderr MsgMissingModel ;; exit EXIT_FAILURE
  | model :: images =>
      fd <- startup cfg model ;;
      _ <- for_each images (image_body cfg fd) (initial_locals cfg) ;;
      shutdown fd
  end.

(** *** [main] *)
Definition main (opts : list (ascii * string)) (positional : list string) : M unit :=
  cfg <- options_loop opts initial_config ;;
  run cfg positional.

End Driver.

(** ** A scripted library for running the driver

    A small world in which the behaviour of every call is fixed by the
    names it is given: enough to run [main] on concrete command lines. *)
Module Script.

(** The clock and the image each session holds. *)
Record World := mkWorld {
  clock : Z;
  pose_image : string;
  faces_image : string
}.

Definition start : World := mkWorld 0 "" "".

Definition image_in (c : Ctx) (w : World) : string :=
  match c with pose_ctx => pose_image w | faces_ctx => faces_image w end.

Definition put_image (c : Ctx) (image : string) (w : World) : World :=
  match c with
  | pose_ctx => mkWorld (clock w) image (faces_image w)
  | faces_ctx => mkWorld (clock w) (pose_image w) image
  end.

Definition digit (c : ascii) : option Z :=
  let n := Z.of_nat (nat_of_ascii c) in
  if ((48 <=? n)%Z && (n <=? 57)%Z)%bool then Some (n - 48) else None.

Fixpoint digits (s : string) (acc : Z) : Z :=
  match s with
  | String c s' =>
      match digit c with
      | Some d => digits s' (10 * acc + d)
      | None => acc
      end
  | EmptyString => acc
  end.

(** Decimal integers with an optional minus sign. *)
Definition parse_int (s : string) : Z :=
  match s with
  | String "-" s' => - digits s' 0
  | _ => digits s 0
  end.

(** Decimal numbers with one fractional digit, such as [-0.3] or [1.7]:
    the tenths are divided by ten in binary64. *)
Definition tenths (s : string) : Z :=
  match s with
  | String a (String "." (String b EmptyString)) =>
      match digit a, digit b with
      | Some x, Some y => 10 * x + y
      | _, _ => 0
      end
  | _ => 0
  end.

Definition parse_decimal (s : string) : spec_float :=
  match s with
  | String "-" s' =>
      SFdiv prec64 emax64 (double_of_int (- tenths s')) (double_of_int 10)
  | _ => SFdiv prec64 emax64 (double_of_int (tenths s)) (double_of_int 10)
  end.

#[export] Instance libc : Libc := {| atoi := parse_int; atof := parse_decimal |}.

Definition face (x y : spec_float) : VAALBox :=
  mkBox x y f0_5 f0_5 f1_0.

(** The faces the detector reports for an image. *)
Definition faces_of (image : string) : list VAALBox :=
  if image =? "pair.png" then [face f0_0 f0_0; face f0_0 f0_5]
  else if image =? "empty.png" then []
  else [face f0_0 f0_0].

#[export] Instance lib : VAAL World := {|
  VAAL_IMAGE_PROC_UNSIGNED_NORM := 1;
  VAAL_IMAGE_PROC_WHITENING := 2;
  VAAL_IMAGE_PROC_SIGNED_NORM := 4;
  VAAL_IMAGE_PROC_IMAGENET := 8;
  vaal_version := "1.0";
  vaal_strerror := fun err => if (err =? 2)%Z then "no such file" else "error";
  vaal_clock_now := fun w =>
    (clock w, mkWorld (clock w + 1000) (pose_image w) (faces_image w));
  vaal_context_create := fun _ w => w;
  vaal_load_model_file := fun _ model w =>
    (if model =? "missing.rtm" then 2 else 0, w);
  vaal_parameter_seti := fun _ _ _ w => w;
  vaal_parameter_setf := fun _ _ _ w => w;
  vaal_model_probe := fun e w => (e =? "npu", w);
  vaal_image_file_resolution := fun image w =>
    if image =? "missing.png" then ((2, 0, 0), w) else ((0, 640, 480), w);
  vaal_load_image_file := fun c image _ w =>
    if image =? "missing.png" then (2, w) else (0, put_image c image w);
  vaal_run_model := fun c w =>
    match c with
    | faces_ctx => (if image_in c w =? "noisy.png" then 5 else 0, w)
    | pose_ctx => (if image_in c w =? "dark.png" then 6 else 0, w)
    end;
  vaal_boxes := fun c _ max_boxes _ w =>
    let found := firstn (Z.to_nat max_boxes) (faces_of (image_in c w)) in
    ((0, found, List.length found), w);
  vaal_euler := fun c _ _ w =>
    if image_in c w =? "blank.png" then ((7, zero_euler, 0%nat), w)
    else ((0, mkEuler f0_5 f0_0 f0_0, 1%nat), w);
  vaal_context_release := fun _ w => w
|}.

End Script.

(** ** Vocabulary of the properties *)

(** The resources [main] owns: its two sessions and its three buffers. *)
Inductive Resource :=
| Session (c : Ctx)
| Buf (b : Buffer).

(** The resource an event acquires: a buffer by [calloc], the pose session
    by [vaal_context_create], the face session by a successful probe. *)
Definition acquires (e : Event) : option Resource :=
  match e with
  | EvCalloc b _ => Some (Buf b)
  | EvContextCreate _ => Some (Session pose_ctx)
  | EvProbe _ true => Some (Session faces_ctx)
  | _ => None
  end.

(** The resource an event releases. *)
Definition releases (e : Event) : option Resource :=
  match e with
  | EvRelease c => Some (Session c)
  | EvFree b => Some (Buf b)
  | _ => None
  end.

Fixpoint choose {A B} (f : A -> option B) (l : list A) : list B :=
  match l with
  | [] => []
  | a :: l' =>
      match f a with
      | Some b => b :: choose f l'
      | None => choose f l'
      end
  end.

(** The resources acquired and released along a trace, in order. *)
Definition acquired (t : list Event) : list Resource := choose acquires t.
Definition released (t : list Event) : list Resource := choose releases t.

(** The parameter settings along a trace, in order. *)
Definition is_setting (e : Event) : option Event :=
  match e with
  | EvSetI _ _ _ | EvSetF _ _ _ => Some e
  | _ => None
  end.
Definition settings (t : list Event) : list Event := choose is_setting t.

(** An image load that the library refused. *)
Definition failed_load (e : Event) : Prop :=
  match e with
  | EvLoadImage _ _ _ err => err <> 0
  | _ => False
  end.

(** What an event may say about the [boxes] buffer when its capacity is
    [cap]: it is allocated with [cap] elements, box retrieval is called on
    the face session with capacity [cap] and leaves a count within it, and
    a printed box has an index below [cap]. *)
Definition box_event_within (cap : Z) (e : Event) : Prop :=
  match e with
  | EvCalloc boxes_buf n => n = cap
  | EvBoxes c max_boxes _ n =>
      c = faces_ctx /\ max_boxes = cap /\ Z.of_nat n <= cap
  | EvStdout (MsgBoxLine j _ _ _) => Z.of_nat j < cap
  | _ => True
  end.

(** Where an event uses the maximum number of detections, it uses [v]. *)
Definition uses_max_detection (v : Z) (e : Event) : Prop :=
  match e with
  | EvCalloc boxes_buf n => n = v
  | EvSetI _ name n => if name =? "max_detection" then n = v else True
  | EvBoxes _ max_boxes _ _ => max_boxes = v
  | _ => True
  end.

(** The messages of the option loop. *)
Definition option_message (m : Message) : Prop :=
  match m with
  | USAGE | MsgVersion _ | MsgUnsupportedNorm _ | MsgInvalidParameter _ => True
  | _ => False
  end.

(** The events of the image loop: its output lines, and the calls that
    load an image, run a session or read its results.  Box retrieval is
    called on the face session with the configured capacity. *)
Definition loop_event (cfg : Config) (e : Event) : Prop :=
  match e with
  | EvStdout (MsgBoxHeader | MsgResolution _ _ | MsgBoxLine _ _ _ _ | MsgPose _ _ _ _) => True
  | EvStderr (MsgFailedLoad _ _ | MsgFailedRun _ | MsgDecodeFailed) => True
  | EvLoadImage _ _ _ _ | EvRunModel _ _ | EvEuler _ _ => True
  | EvBoxes c max_boxes _ _ => c = faces_ctx /\ max_boxes = max_detection cfg
  | _ => False
  end.

(** The events [main] has produced when the image loop starts, by the
    value of [face_detect] then and before the probe. *)
Definition startup_trace (cfg : Config) (model : string) (fd : bool) : list Event :=
  [EvCalloc boxes_buf (max_detection cfg);
   EvCalloc orientations_buf 1;
   EvCalloc roi_buf 4;
   EvContextCreate (engine cfg);
   EvLoadModel pose_ctx model 0;
   EvSetI pose_ctx "normalization" (norm cfg)] ++
  (if fd then
     [EvProbe (engine cfg) true;
      EvStdout MsgFoundFaceModel;
      EvSetI faces_ctx "max_detection" (max_detection cfg);
      EvSetF faces_ctx "score_threshold" (score_thr cfg);
      EvSetF faces_ctx "iou_threshold" (iou_thr cfg);
      EvSetI faces_ctx "normalization" 0]
   else if face_detect cfg then
     [EvProbe (engine cfg) false; EvStdout MsgUnableToLocate]
   else []).

(** The events of lines 277-283. *)
Definition shutdown_trace (fd : bool) : list Event :=
  (if fd then [EvRelease faces_ctx] else []) ++
  [EvRelease pose_ctx; EvFree boxes_buf; EvFree orientations_buf; EvFree roi_buf].

(** The ways [main] can end once the options are read, with the events it
    leaves: no model on the command line; the model does not load; the
    image loop returns from [main]; the image loop reads outside [boxes];
    the image loop completes and the resources are released. *)
Inductive run_shape (cfg : Config) :
    list string -> Outcome unit -> list Event -> Prop :=
| shape_no_model :
    run_shape cfg [] (Return EXIT_FAILURE) [EvStderr MsgMissingModel]
| shape_model_refused model images err reason :
    run_shape cfg (model :: images) (Return EXIT_FAILURE)
      [EvCalloc boxes_buf (max_detection cfg);
       EvCalloc orientations_buf 1;
       EvCalloc roi_buf 4;
       EvContextCreate (engine cfg);
       EvLoadModel pose_ctx model err;
       EvStderr (MsgFailedLoadModel reason)]
| shape_loop_returned model images fd t :
    Forall (loop_event cfg) t ->
    run_shape cfg (model :: images) (Return EXIT_FAILURE)
      (startup_trace cfg model fd ++ t)
| shape_loop_faulted model images fd t :
    Forall (loop_event cfg) t ->
    run_shape cfg (model :: images) Fault
      (startup_trace cfg model fd ++ t)
| shape_completed model images fd t :
    Forall (loop_event cfg) t ->
    run_shape cfg (model :: images) (Return EXIT_SUCCESS)
      (startup_trace cfg model fd ++ t ++ shutdown_trace fd).

Section Properties.
Context {World : Type} {libc : Libc} {lib : VAAL World}.

(** [holds m E N X F]: in every world, every event of [m] satisfies [E];
    a value [m] goes on with satisfies [N]; a status it returns from
    [main] with satisfies [X]; and it faults only if [F]. *)
Definition holds {A} (m : M World A) (E : Event -> Prop)
    (N : A -> Prop) (X : Z -> Prop) (F : Prop) : Prop :=
  forall w,
    Forall E (trace_of (m w)) /\
    match outcome_of (m w) with
    | Next a => N a
    | Return c => X c
    | Fault => F
    end.

(** What the driver expects of [vaal_boxes]: a count that is within the
    capacity before the call is within it after the call (the library
    stores a count up to the capacity, or leaves the counter alone). *)
Definition boxes_contract : Prop :=
  forall c buf max_boxes n w,
    Z.of_nat n <= max_boxes ->
    Z.of_nat (snd (fst (vaal_boxes c buf max_boxes n w))) <= max_boxes.

(** A run stops at its first refused image load: either no load is
    refused, or the trace ends with the refused load and the message
    for it, and [main] returns [EXIT_FAILURE]. *)
Definition stops_at_failed_load {A} (x : Outcome A * list Event * World) : Prop :=
  Forall (fun e => ~ failed_load e) (trace_of x) \/
  exists pre c image roi err,
    err <> 0 /\
    Forall (fun e => ~ failed_load e) pre /\
    trace_of x =
      pre ++ [EvLoadImage c image roi err;
              EvStderr (MsgFailedLoad image (vaal_strerror err))] /\
    outcome_of x = Return EXIT_FAILURE.

(** An option either updates the variables without a trace, or prints
    one message and leaves [main]; it never touches the world. *)
Definition option_result (w : World) (x : Outcome Config * list Event * World) : Prop :=
  world_of x = w /\
  match outcome_of x with
  | Next _ => trace_of x = []
  | Return c =>
      exists m, option_message m /\
        ((trace_of x = [EvStdout m] /\ c = EXIT_SUCCESS) \/
         (trace_of x = [EvStderr m] /\ c = EXIT_FAILURE))
  | Fault => False
  end.

(** A computation all of whose runs stop at the first refused load. *)
Definition stops {A} (m : M World A) : Prop :=
  forall w, stops_at_failed_load (m w).

(** The invariant of the image loop on the [boxes] buffer of capacity
    [cap]. *)
Definition boxes_fit (cap : Z) (st : Locals) : Prop :=
  List.length (boxes st) = Z.to_nat cap /\ Z.of_nat (num_boxes st) <= cap.

End Properties.

(** ** The traces of a run

    The events of [main], piece by piece, as the control flow of the
    source produces them.  An [Outcome unit] tells how a piece ends. *)

Definition forget {A} (r : Outcome A) : Outcome unit :=
  match r with
  | Next _ => Next tt
  | Return c => Return c
  | Fault => Fault
  end.

Section Traces.
Context {World : Type} {lib : VAAL World}.

(** Lines 204-226 and 240-263: an image goes through the pose session.
    The flag tells whether the three calls succeeded. *)
Inductive pose_pass (image : string) (roi : option (Z * Z * Z * Z)) :
    bool -> list Event -> Prop :=
| pose_load_refused err :
    err <> 0 ->
    pose_pass image roi false
      [EvLoadImage pose_ctx image roi err;
       EvStderr (MsgFailedLoad image (vaal_strerror err))]
| pose_run_refused err :
    err <> 0 ->
    pose_pass image roi false
      [EvLoadImage pose_ctx image roi 0;
       EvRunModel pose_ctx err;
       EvStderr (MsgFailedRun (vaal_strerror err))]
| pose_decode_refused err :
    err <> 0 ->
    pose_pass image roi false
      [EvLoadImage pose_ctx image roi 0;
       EvRunModel pose_ctx 0;
       EvEuler pose_ctx err;
       EvStderr MsgDecodeFailed]
| pose_passed :
    pose_pass image roi true
      [EvLoadImage pose_ctx image roi 0;
       EvRunModel pose_ctx 0;
       EvEuler pose_ctx 0].

(** Lines 197-238: the box loop from index [j] with [n] boxes to go. *)
Inductive box_loop_trace (image : string) :
    nat -> nat -> Outcome unit -> list Event -> Prop :=
| boxes_done j :
    box_loop_trace image j 0 (Next tt) []
| box_printed j n roi t percent box o r t' :
    pose_pass image (Some roi) true t ->
    box_loop_trace image (S j) n r t' ->
    box_loop_trace image j (S n) r
      (t ++ EvStdout (MsgBoxLine j percent box o) :: t')
| box_refused j n roi t :
    pose_pass image (Some roi) false t ->
    box_loop_trace image j (S n) (Return EXIT_FAILURE) t
| box_outside j n :
    box_loop_trace image j (S n) Fault [].

(** Lines 181-274: one image, in two-stage mode ([true]) or in
    single-stage mode ([false]). *)
Inductive image_trace (cfg : Config) :
    bool -> string -> Outcome unit -> list Event -> Prop :=
| single_printed image t load_ns inference_ns pose_ns o :
    pose_pass image None true t ->
    image_trace cfg false image (Next tt)
      (t ++ [EvStdout (MsgPose load_ns inference_ns pose_ns o)])
| single_refused image t :
    pose_pass image None false t ->
    image_trace cfg false image (Return EXIT_FAILURE) t
| faces_load_refused image w h err :
    err <> 0 ->
    image_trace cfg true image (Return EXIT_FAILURE)
      [EvStdout MsgBoxHeader;
       EvStdout (MsgResolution w h);
       EvLoadImage faces_ctx image None err;
       EvStderr (MsgFailedLoad image (vaal_strerror err))]
| faces_detected image w h run_err boxes_err n r t :
    box_loop_trace image 0 n r t ->
    image_trace cfg true image r
      ([EvStdout MsgBoxHeader;
        EvStdout (MsgResolution w h);
        EvLoadImage faces_ctx image None 0;
        EvRunModel faces_ctx run_err;
        EvBoxes faces_ctx (max_detection cfg) boxes_err n] ++ t).

(** Lines 176-275: the image loop. *)
Inductive images_trace (cfg : Config) (fd : bool) :
    list string -> Outcome unit -> list Event -> Prop :=
| images_done :
    images_trace cfg fd [] (Next tt) []
| image_done image images t r t' :
    image_trace cfg fd image (Next tt) t ->
    images_trace cfg fd images r t' ->
    images_trace cfg fd (image :: images) r (t ++ t')
| image_stopped image images r t :
    image_trace cfg fd image r t ->
    r <> Next tt ->
    images_trace cfg fd (image :: images) r t.

(** Lines 136-285: [main] once the options are read. *)
Inductive run_trace (cfg : Config) :
    list string -> Outcome unit -> list Event -> Prop :=
| run_no_model :
    run_trace cfg [] (Return EXIT_FAILURE) [EvStderr MsgMissingModel]
| run_model_refused model images err :
    err <> 0 ->
    run_trace cfg (model :: images) (Return EXIT_FAILURE)
      [EvCalloc boxes_buf (max_detection cfg);
       EvCalloc orientations_buf 1;
       EvCalloc roi_buf 4;
       EvContextCreate (engine cfg);
       EvLoadModel pose_ctx model err;
       EvStderr (MsgFailedLoadModel (vaal_strerror err))]
| run_completed model images fd t :
    (fd = true -> face_detect cfg = true) ->
    images_trace cfg fd images (Next tt) t ->
    run_trace cfg (model :: images) (Return EXIT_SUCCESS)
      (startup_trace cfg model fd ++ t ++ shutdown_trace fd)
| run_stopped model images fd r t :
    (fd = true -> face_detect cfg = true) ->
    images_trace cfg fd images r t ->
    r <> Next tt ->
    run_trace cfg (model :: images) r (startup_trace cfg model fd ++ t).

(** A library error that [main] tests, with the message it prints for it:
    a model or an image that does not load, a pose inference that fails,
    an orientation that does not decode.  The face session's inference is
    not among them. *)
Definition checked_failure (e : Event) : option Message :=
  match e with
  | EvLoadModel _ _ err =>
      if (err =? 0)%Z then None else Some (MsgFailedLoadModel (vaal_strerror err))
  | EvLoadImage _ image _ err =>
      if (err =? 0)%Z then None else Some (MsgFailedLoad image (vaal_strerror err))
  | EvRunModel pose_ctx err =>
      if (err =? 0)%Z then None else Some (MsgFailedRun (vaal_strerror err))
  | EvEuler _ err =>
      if (err =? 0)%Z then None else Some MsgDecodeFailed
  | _ => None
  end.

Definition unchecked (e : Event) : Prop := checked_failure e = None.

(** The run has met no tested error, or it ends with one and its message
    and returns [EXIT_FAILURE]. *)
Definition final (r : Outcome unit) (t : list Event) : Prop :=
  Forall unchecked t \/
  exists pre e m,
    t = pre ++ [e; EvStderr m] /\ Forall unchecked pre /\
    checked_failure e = Some m /\ r = Return EXIT_FAILURE.

End Traces.

(** ** Projections of a trace used by the properties *)




(** The images loaded whole (without a region), in order: the loads of
    the first stage of either mode. *)
Definition whole_load (e : Event) : option string :=
  match e with
  | EvLoadImage _ image None _ => Some image
  | _ => None
  end.
Definition whole_loads (t : list Event) : list string := choose whole_load t.

(** The counts left by box retrieval, and the indices of the boxes
    printed, in order. *)
Definition box_count (e : Event) : option nat :=
  match e with EvBoxes _ _ _ n => Some n | _ => None end.
Definition box_index (e : Event) : option nat :=
  match e with EvStdout (MsgBoxLine j _ _ _) => Some j | _ => None end.
Definition box_counts (t : list Event) : list nat := choose box_count t.
Definition box_indices (t : list Event) : list nat := choose box_index t.

(** The indices that the counts of a trace call for. *)
Definition boxes_due (t : list Event) : list nat := flat_map (seq 0) (box_counts t).

(** The single-stage result lines. *)
Definition pose_line (e : Event) : option VAALEuler :=
  match e with EvStdout (MsgPose _ _ _ o) => Some o | _ => None end.
Definition pose_lines (t : list Event) : list VAALEuler := choose pose_line t.



(** An event of the face-detection stage: the probe, or any call on the
    face session. *)
Definition face_stage (e : Event) : Prop :=
  match e with
  | EvProbe _ _ | EvBoxes _ _ _ _ => True
  | EvLoadModel faces_ctx _ _ | EvSetI faces_ctx _ _ | EvSetF faces_ctx _ _
  | EvLoadImage faces_ctx _ _ _ | EvRunModel faces_ctx _ | EvEuler faces_ctx _
  | EvRelease faces_ctx => True
  | EvLoadImage pose_ctx _ (Some _) _ => True
  | EvStdout (MsgFoundFaceModel | MsgUnableToLocate | MsgBoxHeader
             | MsgResolution _ _ | MsgBoxLine _ _ _ _) => True
  | _ => False
  end.

(** The sizes the three buffers may be allocated with. *)
Definition buffer_size_ok (e : Event) : Prop :=
  match e with
  | EvCalloc boxes_buf n => 1 <= n
  | EvCalloc orientations_buf n => n = 1
  | EvCalloc roi_buf n => n = 4
  | _ => True
  end.

(** An event that feeds or runs a session or reads its results. *)
Definition uses_session (e : Event) : Prop :=
  match e with
  | EvLoadImage _ _ _ _ | EvRunModel _ _ | EvBoxes _ _ _ _ | EvEuler _ _ => True
  | _ => False
  end.


(** The engine the command line selects: the argument of the last [-e],
    [current] when there is none. *)
Fixpoint chosen_engine (current : string) (opts : list (ascii * string)) : string :=
  match opts with
  | [] => current
  | (opt, optarg) :: rest =>
      chosen_engine (if (opt =? "e")%char then optarg else current) rest
  end.

(** Where an event names a compute engine, it names [name]. *)
Definition on_engine (name : string) (e : Event) : Prop :=
  match e with
  | EvContextCreate en | EvProbe en _ => en = name
  | _ => True
  end.


(** A call on the face session. *)
Definition on_face_session (e : Event) : Prop :=
  match e with
  | EvLoadModel faces_ctx _ _ | EvSetI faces_ctx _ _ | EvSetF faces_ctx _ _
  | EvLoadImage faces_ctx _ _ _ | EvRunModel faces_ctx _
  | EvBoxes faces_ctx _ _ _ | EvEuler faces_ctx _ | EvRelease faces_ctx => True
  | _ => False
  end.

(** A call on the pose session that needs its model. *)
Definition needs_pose_model (e : Event) : Prop :=
  match e with
  | EvSetI pose_ctx _ _ | EvSetF pose_ctx _ _
  | EvLoadImage pose_ctx _ _ _ | EvRunModel pose_ctx _
  | EvBoxes pose_ctx _ _ _ | EvEuler pose_ctx _ => True
  | _ => False
  end.


(** * Properties *)

Section Theory.
Context {World : Type} {libc : Libc} {lib : VAAL World}.

Local Abbreviation M := (M World).

(** ** The monad *)

Lemma bind_run {A B} (m : M A) (k : A -> M B) (w : World) :
  bind m k w =
  match m w with
  | (Next a, t, w1) =>
      (outcome_of (k a w1), t ++ trace_of (k a w1), world_of (k a w1))
  | (Return c, t, w1) => (Return c, t, w1)
  | (Fault, t, w1) => (Fault, t, w1)
  end.
Proof.
  unfold bind, outcome_of, trace_of, world_of.
  destruct (m w) as [[[a | c | ] t] w1]; try reflexivity.
  destruct (k a w1) as [[r t'] w2]; reflexivity.
Qed.

Lemma holds_ret {A} (a : A) E (N : A -> Prop) X F :
  N a -> holds (ret a : M A) E N X F.
Proof. intros H w; split; [constructor | exact H]. Qed.

Lemma holds_exit {A} c E (N : A -> Prop) (X : Z -> Prop) F :
  X c -> holds (exit c : M A) E N X F.
Proof. intros H w; split; [constructor | exact H]. Qed.

Lemma holds_fault {A} E (N : A -> Prop) X (F : Prop) :
  F -> holds (fault : M A) E N X F.
Proof. intros H w; split; [constructor | exact H]. Qed.

Lemma holds_emit e (E : Event -> Prop) X F :
  E e -> holds (emit e : M unit) E (fun _ => True) X F.
Proof. intros H w; split; [repeat constructor; exact H | exact I]. Qed.

Lemma holds_call {A} (f : World -> A * World) ev (E : Event -> Prop) X F :
  (forall a, Forall E (ev a)) -> holds (call f ev) E (fun _ => True) X F.
Proof.
  intros H w; unfold call, trace_of, outcome_of.
  destruct (f w) as [a w']; simpl; split; [apply H | exact I].
Qed.

Lemma holds_call_ (f : World -> World) e (E : Event -> Prop) X F :
  E e -> holds (call_ f e) E (fun _ => True) X F.
Proof. intros H w; split; [repeat constructor; exact H | exact I]. Qed.

Lemma holds_bind {A B} (m : M A) (k : A -> M B) E N1 N2 X F :
  holds m E N1 X F ->
  (forall a, N1 a -> holds (k a) E N2 X F) ->
  holds (bind m k) E N2 X F.
Proof.
  intros Hm Hk w. rewrite bind_run.
  destruct (Hm w) as [Ht Hr]. unfold trace_of, outcome_of in *.
  destruct (m w) as [[[a | c | ] t] w1]; simpl in *; try (split; assumption).
  destruct (Hk a Hr w1) as [Ht' Hr'].
  split; [apply Forall_app; split; assumption | exact Hr'].
Qed.

Lemma holds_weaken {A} (m : M A) (E E' : Event -> Prop)
    (N N' : A -> Prop) (X X' : Z -> Prop) (F F' : Prop) :
  holds m E N X F ->
  (forall e, E e -> E' e) -> (forall a, N a -> N' a) ->
  (forall c, X c -> X' c) -> (F -> F') ->
  holds m E' N' X' F'.
Proof.
  intros H HE HN HX HF w. destruct (H w) as [Ht Hr]. split.
  - eapply Forall_impl; [exact HE | exact Ht].
  - destruct (outcome_of (m w)); auto.
Qed.

Lemma holds_for_each {A S} (body : A -> S -> M S) E (Inv : S -> Prop) X F :
  forall l : list A,
    (forall a s, In a l -> Inv s -> holds (body a s) E Inv X F) ->
    forall s, Inv s -> holds (for_each l body s) E Inv X F.
Proof.
  induction l as [| a l IH]; intros Hb s Hs; simpl.
  - apply holds_ret; exact Hs.
  - eapply holds_bind.
    + apply Hb; [left; reflexivity | exact Hs].
    + intros s' Hs'. apply IH; [ | exact Hs'].
      intros a' s'' Hin. apply Hb. right; exact Hin.
Qed.

(** ** Stepping through a driver computation *)

Ltac unfold_calls :=
  unfold printf, fprintf_stderr, calloc, free, clock_now, context_create,
    load_model_file, parameter_seti, parameter_setf, model_probe,
    image_file_resolution, load_image_file, run_model, context_release.

(** ** The option loop *)

Lemma option_case_result opt optarg cfg w :
  option_result w (option_case opt optarg cfg w).
Proof.
  unfold option_case, option_result.
  repeat match goal with
         | |- context [if ?b then _ else _] => destruct b
         end;
    cbn; split; try reflexivity;
    eexists; (split; [ | first [left; split; reflexivity | right; split; reflexivity]]);
    exact I.
Qed.

Lemma options_loop_result opts :
  forall cfg w, option_result w (options_loop opts cfg w).
Proof.
  induction opts as [| [opt optarg] rest IH]; intros cfg w.
  - cbn. split; reflexivity.
  - cbn [options_loop]. unfold option_result. rewrite bind_run.
    destruct (option_case_result opt optarg cfg w) as [Hw Hr].
    unfold world_of, outcome_of, trace_of in Hw, Hr.
    destruct (option_case opt optarg cfg w) as [[[cfg' | c | ] t] w1];
      cbn in Hw, Hr; subst.
    + destruct (IH cfg' w) as [Hw' Hr']. cbn. split; [exact Hw' | exact Hr'].
    + cbn. split; [reflexivity | exact Hr].
    + contradiction.
Qed.

Lemma option_case_max_detection opt optarg cfg cfg' w :
  outcome_of (option_case opt optarg cfg w) = Next cfg' ->
  1 <= max_detection cfg -> 1 <= max_detection cfg'.
Proof.
  unfold option_case.
  repeat match goal with
         | |- context [if ?b then _ else _] => destruct b
         end;
    cbn; intros H Hc; inversion H; subst; cbn; try exact Hc.
  unfold MAX. destruct (atoi optarg >? 1) eqn:Hgt; lia.
Qed.

Lemma options_loop_max_detection opts :
  forall cfg cfg' w,
    outcome_of (options_loop opts cfg w) = Next cfg' ->
    1 <= max_detection cfg -> 1 <= max_detection cfg'.
Proof.
  induction opts as [| [opt optarg] rest IH]; intros cfg cfg' w H Hc.
  - cbn in H. inversion H; subst; exact Hc.
  - cbn [options_loop] in H. rewrite bind_run in H.
    destruct (option_case opt optarg cfg w) as [[[cfg1 | c | ] t] w1] eqn:Hoc;
      cbn in H; try discriminate.
    eapply IH; [exact H | ].
    apply (option_case_max_detection opt optarg cfg cfg1 w); [ | exact Hc].
    rewrite Hoc; reflexivity.
Qed.


Lemma main_parsed opts positional w cfg :
  outcome_of (options_loop opts initial_config w) = Next cfg ->
  main opts positional w = run cfg positional w.
Proof.
  intros H. unfold main. rewrite bind_run.
  destruct (options_loop_result opts initial_config w) as [Hw Hr].
  rewrite H in Hr. unfold outcome_of, trace_of, world_of in *.
  destruct (options_loop opts initial_config w) as [[r t] w1].
  cbn in *; subst. destruct (run cfg positional w) as [[r' t'] w']; reflexivity.
Qed.

Lemma main_not_parsed opts positional w c :
  outcome_of (options_loop opts initial_config w) = Return c ->
  main opts positional w =
    (Return c, trace_of (options_loop opts initial_config w), w).
Proof.
  intros H. unfold main. rewrite bind_run.
  destruct (options_loop_result opts initial_config w) as [Hw _].
  unfold outcome_of, trace_of, world_of in *.
  destruct (options_loop opts initial_config w) as [[r t] w1].
  cbn in *; subst. reflexivity.
Qed.

(** ** The calls that read results *)

Lemma holds_read_box st j (E : Event -> Prop) X :
  holds (read_box st j : M VAALBox) E (fun _ => True) X True.
Proof.
  unfold read_box. destruct (nth_error (boxes st) j).
  - apply holds_ret; exact I.
  - apply holds_fault; exact I.
Qed.

Lemma holds_read_box_within st j (E : Event -> Prop) X F :
  (j < List.length (boxes st))%nat ->
  holds (read_box st j : M VAALBox) E (fun _ => True) X F.
Proof.
  intros Hj. unfold read_box.
  destruct (nth_error (boxes st) j) eqn:Hn.
  - apply holds_ret; exact I.
  - apply nth_error_None in Hn. lia.
Qed.

Lemma holds_get_euler c st (E : Event -> Prop) X F :
  (forall err, E (EvEuler c err)) ->
  holds (get_euler c st) E
    (fun x => boxes (snd x) = boxes st /\ num_boxes (snd x) = num_boxes st) X F.
Proof.
  intros HE w. unfold get_euler, trace_of, outcome_of.
  destruct (vaal_euler c (orientations st) (num_orientations st) w)
    as [[[err o] n] w'].
  cbn. split; [repeat constructor; apply HE | split; reflexivity].
Qed.

Lemma holds_get_boxes c max_boxes st (E : Event -> Prop) X F :
  (forall err n, E (EvBoxes c max_boxes err n)) ->
  holds (get_boxes c max_boxes st) E (fun _ => True) X F.
Proof.
  intros HE w. unfold get_boxes, trace_of, outcome_of.
  destruct (vaal_boxes c (boxes st) max_boxes (num_boxes st) w)
    as [[[err b] n] w'].
  cbn. split; [repeat constructor; apply HE | exact I].
Qed.

Lemma store_boxes_length written :
  forall buf, List.length (store_boxes written buf) = List.length buf.
Proof.
  induction written as [| b written IH]; intros [| x buf]; cbn; try reflexivity.
  rewrite IH; reflexivity.
Qed.

Lemma holds_get_boxes_fit c cap st (E : Event -> Prop) X F :
  boxes_contract -> boxes_fit cap st ->
  (forall err n, Z.of_nat n <= cap -> E (EvBoxes c cap err n)) ->
  holds (get_boxes c cap st) E (fun x => boxes_fit cap (snd x)) X F.
Proof.
  intros Hc [Hlen Hn] HE w. unfold get_boxes, trace_of, outcome_of.
  specialize (Hc c (boxes st) cap (num_boxes st) w Hn).
  destruct (vaal_boxes c (boxes st) cap (num_boxes st) w)
    as [[[err b] n] w'].
  cbn in *. split; [repeat constructor; apply HE; exact Hc | ].
  split; cbn; [rewrite store_boxes_length; exact Hlen | exact Hc].
Qed.

Ltac holds_go :=
  unfold_calls;
  repeat
    lazymatch goal with
    | |- holds (bind _ _) _ _ _ _ => eapply holds_bind; [ | intros ? ? ]
    | |- holds (if ?b then _ else _) _ _ _ _ => destruct b
    | |- holds (match ?x with pair _ _ => _ end) _ _ _ _ => destruct x
    | |- holds (emit _) _ _ _ _ => apply holds_emit
    | |- holds (call_ _ _) _ _ _ _ => apply holds_call_
    | |- holds (call _ _) _ _ _ _ => apply holds_call; intro
    | |- holds (exit _) _ _ _ _ => apply holds_exit
    | |- holds (ret _) _ _ _ _ => apply holds_ret
    | |- holds (read_box _ _) _ _ _ _ => apply holds_read_box
    | |- holds (get_boxes _ _ _) _ _ _ _ => apply holds_get_boxes; intros ? ?
    | |- holds (get_euler _ _) _ _ _ _ => apply holds_get_euler; intro
    end;
  lazymatch goal with
  | |- holds _ _ _ _ _ => idtac
  | _ => cbn; repeat constructor
  end.

(** ** The events of the image loop *)

Lemma box_body_events cfg image w h j st :
  holds (box_body image w h j st) (loop_event cfg)
    (fun _ => True) (fun c => c = EXIT_FAILURE) True.
Proof. unfold box_body. holds_go. Qed.

Lemma single_stage_events cfg image st :
  holds (single_stage image st) (loop_event cfg)
    (fun _ => True) (fun c => c = EXIT_FAILURE) True.
Proof. unfold single_stage. holds_go. Qed.

Lemma two_stage_events cfg image st :
  holds (two_stage cfg image st) (loop_event cfg)
    (fun _ => True) (fun c => c = EXIT_FAILURE) True.
Proof.
  unfold two_stage. holds_go.
  apply holds_for_each; [ | exact I].
  intros; apply box_body_events.
Qed.

Lemma image_loop_events cfg fd images st :
  holds (for_each images (image_body cfg fd) st) (loop_event cfg)
    (fun _ => True) (fun c => c = EXIT_FAILURE) True.
Proof.
  apply holds_for_each; [ | exact I].
  intros image s _ _. unfold image_body. destruct fd.
  - apply two_stage_events.
  - apply single_stage_events.
Qed.


(** ** Startup, shutdown and the shape of a run *)

Lemma startup_cases cfg model w :
  match outcome_of (startup cfg model w) with
  | Next fd =>
      trace_of (startup cfg model w) = startup_trace cfg model fd
  | Return c =>
      c = EXIT_FAILURE /\
      exists err,
        trace_of (startup cfg model w) =
          [EvCalloc boxes_buf (max_detection cfg);
           EvCalloc orientations_buf 1;
           EvCalloc roi_buf 4;
           EvContextCreate (engine cfg);
           EvLoadModel pose_ctx model err;
           EvStderr (MsgFailedLoadModel (vaal_strerror err))]
  | Fault => False
  end.
Proof.
  unfold startup, probe_faces, startup_trace. unfold_calls.
  unfold bind, emit, call, call_, ret, exit, outcome_of, trace_of. cbn.
  destruct (vaal_load_model_file pose_ctx model
              (vaal_context_create (engine cfg) w)) as [err w2].
  destruct (err =? 0)%Z eqn:He; cbn.
  - apply Z.eqb_eq in He; subst err.
    destruct (face_detect cfg); cbn; [ | reflexivity].
    destruct (vaal_model_probe (engine cfg)
                (vaal_parameter_seti pose_ctx "normalization" (norm cfg) w2))
      as [[|] w3]; cbn; reflexivity.
  - split; [reflexivity | exists err; reflexivity].
Qed.

Lemma shutdown_run fd w :
  shutdown fd w =
    (Return EXIT_SUCCESS, shutdown_trace fd, world_of (shutdown fd w)).
Proof. destruct fd; reflexivity. Qed.

Lemma run_result cfg model images w :
  run cfg (model :: images) w =
    let s := startup cfg model w in
    match outcome_of s with
    | Next fd =>
        let l := for_each images (image_body cfg fd) (initial_locals cfg)
                   (world_of s) in
        match outcome_of l with
        | Next _ =>
            (Return EXIT_SUCCESS,
             trace_of s ++ trace_of l ++ shutdown_trace fd,
             world_of (shutdown fd (world_of l)))
        | Return c => (Return c, trace_of s ++ trace_of l, world_of l)
        | Fault => (Fault, trace_of s ++ trace_of l, world_of l)
        end
    | Return c => (Return c, trace_of s, world_of s)
    | Fault => (Fault, trace_of s, world_of s)
    end.
Proof.
  cbn [run]. rewrite bind_run. unfold outcome_of, trace_of, world_of.
  destruct (startup cfg model w) as [[[fd | c | ] t] w1]; cbn; try reflexivity.
  rewrite bind_run. unfold outcome_of, trace_of, world_of.
  destruct (for_each images (image_body cfg fd) (initial_locals cfg) w1)
    as [[[st | c | ] t2] w2]; cbn; try reflexivity.
  rewrite (shutdown_run fd w2). reflexivity.
Qed.

(** ** Projections of a trace *)

Lemma choose_app {A B} (f : A -> option B) (l1 l2 : list A) :
  choose f (l1 ++ l2) = choose f l1 ++ choose f l2.
Proof.
  induction l1 as [| a l1 IH]; cbn; [reflexivity | ].
  destruct (f a); cbn; rewrite IH; reflexivity.
Qed.

Lemma choose_none {A B} (f : A -> option B) (l : list A) :
  Forall (fun a => f a = None) l -> choose f l = [].
Proof.
  induction 1 as [| a l Ha _ IH]; cbn; [reflexivity | ].
  rewrite Ha; exact IH.
Qed.

Lemma loop_event_acquires cfg e : loop_event cfg e -> acquires e = None.
Proof. destruct e as [m | m | | | | | | | | | | | | ]; try destruct m; cbn; tauto. Qed.

Lemma loop_event_releases cfg e : loop_event cfg e -> releases e = None.
Proof. destruct e as [m | m | | | | | | | | | | | | ]; try destruct m; cbn; tauto. Qed.

Lemma loop_event_is_setting cfg e : loop_event cfg e -> is_setting e = None.
Proof. destruct e as [m | m | | | | | | | | | | | | ]; try destruct m; cbn; tauto. Qed.

Lemma run_has_shape cfg positional w :
  run_shape cfg positional
    (outcome_of (run cfg positional w)) (trace_of (run cfg positional w)).
Proof.
  destruct positional as [| model images]; [constructor | ].
  rewrite run_result; cbv zeta.
  pose proof (startup_cases cfg model w) as Hs.
  destruct (outcome_of (startup cfg model w)) as [fd | c | ]; [ | | contradiction].
  - destruct (image_loop_events cfg fd images (initial_locals cfg)
                (world_of (startup cfg model w))) as [Ht Hr].
    destruct (outcome_of (for_each images (image_body cfg fd)
                            (initial_locals cfg) (world_of (startup cfg model w))))
      as [st | c | ]; cbn [outcome_of trace_of fst snd]; rewrite Hs.
    + apply shape_completed; exact Ht.
    + cbn beta in Hr. subst c. apply shape_loop_returned; exact Ht.
    + apply shape_loop_faulted; exact Ht.
  - destruct Hs as [-> [err Ht]]. cbn [outcome_of trace_of fst snd].
    rewrite Ht. constructor.
Qed.

(** [main] either leaves from the option loop with one message, or reads
    its options and ends as [run] does. *)
Lemma main_cases opts positional w :
  (exists cfg,
     outcome_of (options_loop opts initial_config w) = Next cfg /\
     run_shape cfg positional
       (outcome_of (main opts positional w)) (trace_of (main opts positional w))) \/
  (exists m,
     option_message m /\
     ((outcome_of (main opts positional w) = Return EXIT_SUCCESS /\
       trace_of (main opts positional w) = [EvStdout m]) \/
      (outcome_of (main opts positional w) = Return EXIT_FAILURE /\
       trace_of (main opts positional w) = [EvStderr m]))).
Proof.
  destruct (options_loop_result opts initial_config w) as [_ Hr].
  destruct (outcome_of (options_loop opts initial_config w)) as [cfg | c | ] eqn:Hp;
    [ | | contradiction].
  - left. exists cfg. split; [reflexivity | ].
    rewrite (main_parsed _ positional _ _ Hp). apply run_has_shape.
  - right. rewrite (main_not_parsed _ positional _ _ Hp).
    destruct Hr as [m [Hm [[Ht Hc] | [Ht Hc]]]]; exists m; (split; [exact Hm | ]);
      subst c; [left | right]; (split; [reflexivity | exact Ht]).
Qed.

(** ** Release of the resources *)

Lemma loop_acquires_nothing cfg t :
  Forall (loop_event cfg) t -> acquired t = [].
Proof.
  intros H. apply choose_none.
  eapply Forall_impl; [apply loop_event_acquires | exact H].
Qed.

Lemma loop_releases_nothing cfg t :
  Forall (loop_event cfg) t -> released t = [].
Proof.
  intros H. apply choose_none.
  eapply Forall_impl; [apply loop_event_releases | exact H].
Qed.

Lemma loop_sets_nothing cfg t :
  Forall (loop_event cfg) t -> settings t = [].
Proof.
  intros H. apply choose_none.
  eapply Forall_impl; [apply loop_event_is_setting | exact H].
Qed.

Lemma acquired_app t1 t2 : acquired (t1 ++ t2) = acquired t1 ++ acquired t2.
Proof. apply choose_app. Qed.

Lemma released_app t1 t2 : released (t1 ++ t2) = released t1 ++ released t2.
Proof. apply choose_app. Qed.

Lemma settings_app t1 t2 : settings (t1 ++ t2) = settings t1 ++ settings t2.
Proof. apply choose_app. Qed.

(** C2, as amended.  When [main] returns [EXIT_SUCCESS] it has released
    everything it acquired: nothing on the help and version paths;
    otherwise the face session first if the probe gave one, then the
    pose session, then the buffers [boxes], [orientations] and [roi].
    The sessions go in the reverse order of their acquisition and before
    the buffers; the buffers go in the order of their acquisition. *)
Theorem release_on_normal_completion opts positional w :
  outcome_of (main opts positional w) = Return EXIT_SUCCESS ->
  let t := trace_of (main opts positional w) in
  (acquired t = [] /\ released t = []) \/
  (acquired t =
     [Buf boxes_buf; Buf orientations_buf; Buf roi_buf; Session pose_ctx] /\
   released t =
     [Session pose_ctx; Buf boxes_buf; Buf orientations_buf; Buf roi_buf]) \/
  (acquired t =
     [Buf boxes_buf; Buf orientations_buf; Buf roi_buf;
      Session pose_ctx; Session faces_ctx] /\
   released t =
     [Session faces_ctx; Session pose_ctx;
      Buf boxes_buf; Buf orientations_buf; Buf roi_buf]).
Proof.
  intros H t; subst t.
  destruct (main_cases opts positional w)
    as [[cfg [_ Hs]] | [m [_ [[_ Ht] | [Hc _]]]]].
  - rewrite H in Hs. clear H.
    set (tr := trace_of (main opts positional w)) in *. clearbody tr.
    inversion Hs as [ | | | | model images fd t Ht Hpos Hout Htr]. subst tr.
    rewrite !acquired_app, !released_app.
    rewrite (loop_acquires_nothing cfg t Ht), (loop_releases_nothing cfg t Ht).
    unfold startup_trace, shutdown_trace.
    destruct fd; [ | destruct (face_detect cfg)]; cbn;
      first [ left; split; reflexivity
            | right; left; split; reflexivity
            | right; right; split; reflexivity ].
  - rewrite Ht. left; split; reflexivity.
  - rewrite H in Hc; discriminate.
Qed.

(** A run that ends in failure, or that faults, releases nothing. *)
Lemma nothing_released_on_failure opts positional w :
  outcome_of (main opts positional w) <> Return EXIT_SUCCESS ->
  released (trace_of (main opts positional w)) = [].
Proof.
  intros H.
  destruct (main_cases opts positional w)
    as [[cfg [_ Hs]] | [m [_ [[Hc _] | [_ Ht]]]]].
  - set (tr := trace_of (main opts positional w)) in *. clearbody tr.
    inversion Hs as [ Hpos Hout Htr
                    | model images err reason Hpos Hout Htr
                    | model images fd t Ht Hpos Hout Htr
                    | model images fd t Ht Hpos Hout Htr
                    | model images fd t Ht Hpos Hout Htr ];
      subst tr; try reflexivity.
    + rewrite released_app, (loop_releases_nothing cfg t Ht).
      unfold startup_trace. destruct fd; [ | destruct (face_detect cfg)]; reflexivity.
    + rewrite released_app, (loop_releases_nothing cfg t Ht).
      unfold startup_trace. destruct fd; [ | destruct (face_detect cfg)]; reflexivity.
    + congruence.
  - congruence.
  - rewrite Ht. reflexivity.
Qed.


(** ** Parameters of the sessions *)

(** C3.  Once the options are read, the only parameter ever set on the
    pose session is its normalization, to the mode chosen with [--norm];
    the maximum number of detections and the score and IoU thresholds
    are set on the face session only, and the face session's
    normalization is set to 0 whatever [--norm] says.  The settings of a
    run are none (it ends before them), the first one, or all five. *)
Theorem settings_by_session opts positional w cfg :
  outcome_of (options_loop opts initial_config w) = Next cfg ->
  let s := settings (trace_of (main opts positional w)) in
  s = [] \/
  s = [EvSetI pose_ctx "normalization" (norm cfg)] \/
  s = [EvSetI pose_ctx "normalization" (norm cfg);
       EvSetI faces_ctx "max_detection" (max_detection cfg);
       EvSetF faces_ctx "score_threshold" (score_thr cfg);
       EvSetF faces_ctx "iou_threshold" (iou_thr cfg);
       EvSetI faces_ctx "normalization" 0].
Proof.
  intros Hp s; subst s.
  rewrite (main_parsed _ positional _ _ Hp).
  pose proof (run_has_shape cfg positional w) as Hs.
  set (tr := trace_of (run cfg positional w)) in *. clearbody tr.
  inversion Hs as [ Hpos Hout Htr
                  | model images err reason Hpos Hout Htr
                  | model images fd t Ht Hpos Hout Htr
                  | model images fd t Ht Hpos Hout Htr
                  | model images fd t Ht Hpos Hout Htr ];
    subst tr; try (left; reflexivity);
    rewrite ?settings_app, (loop_sets_nothing cfg t Ht);
    unfold startup_trace, shutdown_trace;
    (destruct fd; [ | destruct (face_detect cfg)]); cbn;
    first [ right; left; reflexivity | right; right; reflexivity ].
Qed.

(** ** Usage errors *)

(** C8.  When the options are read and no positional argument is left,
    [main] prints the missing-model message on standard error and
    returns [EXIT_FAILURE]; it has made no call to the library. *)
Theorem missing_model_fails opts w cfg :
  outcome_of (options_loop opts initial_config w) = Next cfg ->
  main opts [] w = (Return EXIT_FAILURE, [EvStderr MsgMissingModel], w).
Proof. intros Hp. rewrite (main_parsed _ [] _ _ Hp). reflexivity. Qed.

Lemma options_loop_app pre rest :
  forall cfg cfg' w,
    outcome_of (options_loop pre cfg w) = Next cfg' ->
    options_loop (pre ++ rest) cfg w = options_loop rest cfg' w.
Proof.
  induction pre as [| [opt optarg] pre IH]; intros cfg cfg' w H.
  - cbn in H. inversion H; subst. reflexivity.
  - cbn [options_loop app] in *. rewrite bind_run in *.
    destruct (option_case_result opt optarg cfg w) as [Hw Hr].
    unfold outcome_of, trace_of, world_of in Hw, Hr.
    destruct (option_case opt optarg cfg w) as [[[cfg1 | c | ] t] w1];
      cbn in H, Hw, Hr; try discriminate. subst.
    rewrite (IH cfg1 cfg' w H).
    unfold outcome_of, trace_of, world_of.
    destruct (options_loop rest cfg' w) as [[r t'] w']. reflexivity.
Qed.

Lemma unsupported_norm optarg cfg w :
  ~ In optarg ["raw"; "signed"; "unsigned"; "whitening"; "imagenet"] ->
  option_case "n" optarg cfg w =
    (Return EXIT_FAILURE, [EvStderr (MsgUnsupportedNorm optarg)], w).
Proof.
  intros H. unfold option_case. cbn [Ascii.eqb Bool.eqb].
  repeat match goal with
         | |- context [String.eqb optarg ?s] =>
             replace (String.eqb optarg s) with false
               by (symmetry; apply String.eqb_neq; intros ->; apply H; cbn; tauto)
         end.
  reflexivity.
Qed.

(** C7.  When the options before it are accepted, a [--norm] value that
    is none of [raw], [signed], [unsigned], [whitening], [imagenet] makes
    [main] print the unsupported-normalization message on standard
    error and return [EXIT_FAILURE] at once: that message is the whole
    trace, so no session is created and no image is processed, and the
    world is untouched. *)
Theorem unsupported_norm_fails pre optarg post positional w cfg :
  ~ In optarg ["raw"; "signed"; "unsigned"; "whitening"; "imagenet"] ->
  outcome_of (options_loop pre initial_config w) = Next cfg ->
  main (pre ++ ("n"%char, optarg) :: post) positional w =
    (Return EXIT_FAILURE, [EvStderr (MsgUnsupportedNorm optarg)], w).
Proof.
  intros Hn Hp. unfold main. rewrite bind_run.
  rewrite (options_loop_app pre _ _ _ _ Hp).
  cbn [options_loop]. rewrite bind_run.
  rewrite (unsupported_norm optarg cfg w Hn). reflexivity.
Qed.


Lemma options_loop_app_exit pre rest :
  forall cfg c w,
    outcome_of (options_loop pre cfg w) = Return c ->
    options_loop (pre ++ rest) cfg w = options_loop pre cfg w.
Proof.
  induction pre as [| [opt optarg] pre IH]; intros cfg c w H.
  - cbn in H. discriminate.
  - cbn [options_loop app] in *. rewrite !bind_run in *.
    destruct (option_case opt optarg cfg w) as [[[cfg1 | c1 | ] t] w1];
      cbn in H; try reflexivity.
    rewrite (IH cfg1 c w1 H). reflexivity.
Qed.

(** Whatever comes before it, a command line with an unsupported [--norm]
    value ends in the option loop: [main] prints one message and returns
    without a call to the library. *)
Lemma unsupported_norm_starts_nothing pre optarg post positional w :
  ~ In optarg ["raw"; "signed"; "unsigned"; "whitening"; "imagenet"] ->
  exists c m,
    option_message m /\
    (main (pre ++ ("n"%char, optarg) :: post) positional w =
       (Return c, [EvStdout m], w) \/
     main (pre ++ ("n"%char, optarg) :: post) positional w =
       (Return c, [EvStderr m], w)).
Proof.
  intros Hn.
  destruct (options_loop_result pre initial_config w) as [_ Hr].
  destruct (outcome_of (options_loop pre initial_config w)) as [cfg | c | ] eqn:Hp;
    [ | | contradiction].
  - exists EXIT_FAILURE, (MsgUnsupportedNorm optarg). split; [exact I | right].
    unfold main. rewrite bind_run, (options_loop_app pre _ _ _ _ Hp).
    cbn [options_loop]. rewrite bind_run, (unsupported_norm optarg cfg w Hn).
    reflexivity.
  - assert (Hq : outcome_of (options_loop (pre ++ ("n"%char, optarg) :: post)
                               initial_config w) = Return c).
    { rewrite (options_loop_app_exit pre _ _ _ _ Hp). exact Hp. }
    rewrite (main_not_parsed _ positional _ _ Hq).
    rewrite (options_loop_app_exit pre _ _ _ _ Hp).
    destruct Hr as [m [Hm [[-> _] | [-> _]]]]; exists c, m;
      (split; [exact Hm | ]); [left | right]; reflexivity.
Qed.

(** ** The probe for a face-detection model *)

Lemma startup_probe_failed cfg model w w2 w3 :
  face_detect cfg = true ->
  vaal_load_model_file pose_ctx model
    (vaal_context_create (engine cfg) w) = (0, w2) ->
  vaal_model_probe (engine cfg)
    (vaal_parameter_seti pose_ctx "normalization" (norm cfg) w2) = (false, w3) ->
  startup cfg model w = (Next false, startup_trace cfg model false, w3).
Proof.
  intros Hfd Hload Hprobe.
  unfold startup, probe_faces, startup_trace. unfold_calls.
  unfold bind, emit, call, call_, ret, exit. cbn.
  rewrite Hload. cbn. rewrite Hfd. cbn. rewrite Hprobe. reflexivity.
Qed.

(** C4.  When face detection is requested, the model loads and the probe
    returns no session, [main] prints the diagnostic, and goes on with
    [face_detect] off: every image is handled by [single_stage], the
    outcome is that of the single-stage loop ([EXIT_SUCCESS] when the
    loop completes), and only the pose session is released. *)
Theorem probe_failure_degrades opts model images w cfg w2 w3 :
  outcome_of (options_loop opts initial_config w) = Next cfg ->
  face_detect cfg = true ->
  vaal_load_model_file pose_ctx model
    (vaal_context_create (engine cfg) w) = (0, w2) ->
  vaal_model_probe (engine cfg)
    (vaal_parameter_seti pose_ctx "normalization" (norm cfg) w2) = (false, w3) ->
  let loop := for_each images single_stage (initial_locals cfg) w3 in
  let before :=
    [EvCalloc boxes_buf (max_detection cfg);
     EvCalloc orientations_buf 1;
     EvCalloc roi_buf 4;
     EvContextCreate (engine cfg);
     EvLoadModel pose_ctx model 0;
     EvSetI pose_ctx "normalization" (norm cfg);
     EvProbe (engine cfg) false;
     EvStdout MsgUnableToLocate] in
  main opts (model :: images) w =
    match outcome_of loop with
    | Next _ =>
        (Return EXIT_SUCCESS,
         before ++ trace_of loop ++
           [EvRelease pose_ctx; EvFree boxes_buf;
            EvFree orientations_buf; EvFree roi_buf],
         vaal_context_release pose_ctx (world_of loop))
    | Return c => (Return c, before ++ trace_of loop, world_of loop)
    | Fault => (Fault, before ++ trace_of loop, world_of loop)
    end.
Proof.
  intros Hp Hfd Hload Hprobe loop before.
  rewrite (main_parsed _ _ _ _ Hp), run_result; cbv zeta.
  rewrite (startup_probe_failed cfg model w w2 w3 Hfd Hload Hprobe).
  cbn [outcome_of trace_of world_of fst snd].
  change (for_each images (image_body cfg false) (initial_locals cfg) w3)
    with loop.
  unfold startup_trace. rewrite Hfd.
  destruct (let (x, _) := let (x, _) := loop in x in x) as [st | c | ]; reflexivity.
Qed.

(** ** The maximum number of detections *)

Lemma loop_event_uses_max_detection cfg e :
  loop_event cfg e -> uses_max_detection (max_detection cfg) e.
Proof.
  destruct e as [m | m | | | | | | | | | | | | ]; try destruct m; cbn; tauto.
Qed.

Lemma run_uses_max_detection cfg positional w :
  Forall (uses_max_detection (max_detection cfg))
    (trace_of (run cfg positional w)).
Proof.
  pose proof (run_has_shape cfg positional w) as Hs.
  assert (Hstart : forall model fd,
             Forall (uses_max_detection (max_detection cfg))
               (startup_trace cfg model fd)).
  { intros model fd. unfold startup_trace.
    destruct fd; [ | destruct (face_detect cfg)]; cbn; repeat constructor. }
  assert (Hloop : forall t, Forall (loop_event cfg) t ->
             Forall (uses_max_detection (max_detection cfg)) t).
  { intros t. apply Forall_impl. apply loop_event_uses_max_detection. }
  set (tr := trace_of (run cfg positional w)) in *. clearbody tr.
  inversion Hs as [ Hpos Hout Htr
                  | model images err reason Hpos Hout Htr
                  | model images fd t Ht Hpos Hout Htr
                  | model images fd t Ht Hpos Hout Htr
                  | model images fd t Ht Hpos Hout Htr ];
    subst tr; rewrite ?Forall_app; repeat split; auto;
    try (destruct fd); cbn; repeat constructor.
Qed.

(** C6.  [--max_detection] with the integer value [n] sets the maximum
    number of detections to 1 when [n <= 0] and to [n] when [1 <= n];
    that value is the size of the [boxes] buffer, the face session's
    [max_detection] parameter and the capacity given to box retrieval
    in every run with it. *)
Theorem max_detection_floor optarg cfg w :
  exists v,
    option_case "m" optarg cfg w = (Next (set_max_detection cfg v), [], w) /\
    (atoi optarg <= 0 -> v = 1) /\
    (1 <= atoi optarg -> v = atoi optarg) /\
    forall positional w',
      Forall (uses_max_detection v)
        (trace_of (run (set_max_detection cfg v) positional w')).
Proof.
  exists (MAX (atoi optarg) 1). split; [reflexivity | ].
  unfold MAX. repeat split.
  - intros H. destruct (atoi optarg >? 1) eqn:Hgt; lia.
  - intros H. destruct (atoi optarg >? 1) eqn:Hgt; lia.
  - intros positional w'.
    apply (run_uses_max_detection
             (set_max_detection cfg (if atoi optarg >? 1 then atoi optarg else 1))).
Qed.


(** ** The thresholds *)

Lemma SFcompare_antisym x y :
  SFcompare y x = option_map CompOpp (SFcompare x y).
Proof.
  destruct x as [sx | sx | | sx mx ex], y as [sy | sy | | sy my ey];
    try destruct sx; try destruct sy; cbn; try reflexivity;
    rewrite (Z.compare_antisym ex ey);
    destruct (ex ?= ey)%Z; cbn;
    rewrite ?(Pos.compare_cont_antisym mx my Eq); reflexivity.
Qed.

Lemma SFleb_not_gt x y : SFleb x y = true -> SFltb y x = false.
Proof.
  unfold SFleb, SFltb. rewrite (SFcompare_antisym x y).
  destruct (SFcompare x y) as [[ | | ] | ]; cbn; congruence.
Qed.

Lemma above_one_not_negative x :
  SFltb (double_of_int 1) x = true -> SFltb x (double_of_int 0) = false.
Proof.
  destruct x as [s | s | | s m e]; try destruct s; cbn; congruence.
Qed.

(** C5.  [-t] and [-u] with the value [x] read by [atof] set the score
    and the IoU threshold to [0.0] when [x] is negative, to [1.0] when
    [x] is above 1, and to [x] itself, stored as a [float], when [x] is
    within [0, 1]. *)
Theorem threshold_clamped optarg cfg w :
  let x := atof optarg in
  exists v,
    option_case "t" optarg cfg w = (Next (set_score_thr cfg v), [], w) /\
    option_case "u" optarg cfg w = (Next (set_iou_thr cfg v), [], w) /\
    (SFltb x (double_of_int 0) = true -> v = f0_0) /\
    (SFltb (double_of_int 1) x = true -> v = f1_0) /\
    (SFleb (double_of_int 0) x = true -> SFleb x (double_of_int 1) = true ->
     v = float_of_double x).
Proof.
  intros x.
  exists (float_of_double
            (CLAMP x (double_of_float f0_0) (double_of_float f1_0))).
  split; [reflexivity | ]. split; [reflexivity | ].
  replace (double_of_float f0_0) with (double_of_int 0)
    by (vm_compute; reflexivity).
  replace (double_of_float f1_0) with (double_of_int 1)
    by (vm_compute; reflexivity).
  unfold CLAMP. repeat split.
  - intros H. rewrite H. reflexivity.
  - intros H. rewrite (above_one_not_negative x H), H.
    vm_compute; reflexivity.
  - intros H0 H1.
    rewrite (SFleb_not_gt _ _ H0), (SFleb_not_gt _ _ H1). reflexivity.
Qed.


(** ** Stopping at a refused image load *)

Lemma stops_quiet {A} (m : M A) :
  holds m (fun e => ~ failed_load e) (fun _ => True) (fun _ => True) True ->
  stops m.
Proof. intros H w. left. apply (H w). Qed.

Lemma stops_bind {A B} (m : M A) (k : A -> M B) :
  stops m -> (forall a, stops (k a)) -> stops (bind m k).
Proof.
  intros Hm Hk w. unfold stops_at_failed_load. rewrite bind_run.
  destruct (Hm w) as [Hok | (pre & c & image & roi & err & Hne & Hpre & Ht & Hr)];
    unfold trace_of, outcome_of in *;
    destruct (m w) as [[[a | c0 | ] t] w1]; cbn in *;
    try discriminate; try (left; exact Hok).
  - destruct (Hk a w1)
      as [Hok' | (pre & c & image & roi & err & Hne & Hpre & Ht & Hr)].
    + left. apply Forall_app; split; assumption.
    + right. exists (t ++ pre), c, image, roi, err.
      repeat split; try assumption.
      * apply Forall_app; split; assumption.
      * unfold trace_of in Ht. rewrite Ht, app_assoc. reflexivity.
  - right. exists pre, c, image, roi, err. repeat split; try assumption.
    inversion Hr; reflexivity.
Qed.

Lemma stops_for_each {A S} (body : A -> S -> M S) :
  (forall a s, stops (body a s)) ->
  forall l s, stops (for_each l body s).
Proof.
  intros Hb. induction l as [| a l IH]; intros s; cbn [for_each].
  - apply stops_quiet, holds_ret; exact I.
  - apply stops_bind; [apply Hb | exact IH].
Qed.

(** An image load followed by the test of its result. *)
Lemma stops_load_checked {A} c image roi (k : M A) :
  stops k ->
  stops (err <- load_image_file c image roi ;;
         if negb (err =? 0)%Z then
           fprintf_stderr (MsgFailedLoad image (vaal_strerror err)) ;;
           exit EXIT_FAILURE
         else k).
Proof.
  intros Hk w. unfold stops_at_failed_load. rewrite bind_run.
  unfold load_image_file, call.
  destruct (vaal_load_image_file c image roi w) as [err w1].
  destruct (err =? 0)%Z eqn:He; cbn [negb].
  - apply Z.eqb_eq in He; subst err.
    destruct (Hk w1)
      as [Hok | (pre & c' & image' & roi' & err & Hne & Hpre & Ht & Hr)].
    + left. cbn. constructor; [cbn; tauto | exact Hok].
    + right. exists (EvLoadImage c image roi 0 :: pre), c', image', roi', err.
      repeat split; try assumption.
      * constructor; [cbn; tauto | exact Hpre].
      * cbn. rewrite Ht. reflexivity.
  - apply Z.eqb_neq in He.
    right. exists [], c, image, roi, err.
    repeat split; [exact He | constructor].
Qed.

Ltac quiet := apply stops_quiet; holds_go; cbn; tauto.

Lemma box_body_stops image w h j st : stops (box_body image w h j st).
Proof.
  unfold box_body.
  apply stops_bind; [quiet | intros box]; cbv zeta.
  apply stops_bind; [quiet | intros start].
  apply stops_load_checked. quiet.
Qed.

Lemma single_stage_stops image st : stops (single_stage image st).
Proof.
  unfold single_stage.
  apply stops_bind; [quiet | intros start].
  apply stops_load_checked. quiet.
Qed.

Lemma two_stage_stops cfg image st : stops (two_stage cfg image st).
Proof.
  unfold two_stage.
  apply stops_bind; [quiet | intros _].
  apply stops_bind; [quiet | intros [[err w] h]].
  apply stops_bind; [quiet | intros _].
  apply stops_load_checked.
  apply stops_bind; [quiet | intros _].
  apply stops_bind; [quiet | intros [err' st1]].
  apply stops_for_each. intros j s. apply box_body_stops.
Qed.

Lemma run_stops cfg positional : stops (run cfg positional).
Proof.
  destruct positional as [| model images]; cbn [run]; [quiet | ].
  apply stops_bind; [ | intros fd; apply stops_bind; [ | intros _ ] ].
  - unfold startup, probe_faces. quiet.
  - apply stops_for_each. intros image st. unfold image_body.
    destruct fd; [apply two_stage_stops | apply single_stage_stops].
  - unfold shutdown. quiet.
Qed.

Lemma main_stops opts positional : stops (main opts positional).
Proof.
  unfold main. apply stops_bind; [ | intros cfg; apply run_stops].
  intros w. left.
  destruct (options_loop_result opts initial_config w) as [_ Hr].
  destruct (outcome_of (options_loop opts initial_config w)).
  - rewrite Hr. constructor.
  - destruct Hr as [m [_ [[-> _] | [-> _]]]]; repeat constructor; cbn; tauto.
  - contradiction.
Qed.

Lemma only_bad_element {A} (P : A -> Prop) :
  forall pre' pre x x' post post',
    Forall (fun a => ~ P a) pre' -> Forall (fun a => ~ P a) post' ->
    P x ->
    pre ++ x :: post = pre' ++ x' :: post' ->
    pre = pre' /\ x = x' /\ post = post'.
Proof.
  induction pre' as [| y' pre' IH]; intros [| y pre] x x' post post' Hpre Hpost Hx Heq;
    cbn in Heq; inversion Heq; subst.
  - repeat split.
  - exfalso. apply Forall_app in Hpost. destruct Hpost as [_ Hpost].
    inversion Hpost; subst. contradiction.
  - exfalso. inversion Hpre; subst. contradiction.
  - inversion Hpre; subst.
    destruct (IH pre x x' post post') as (-> & -> & ->); auto.
Qed.

(** C9.  If the library refuses an image load anywhere in a run,
    whatever the number of images, [main] returns [EXIT_FAILURE] and the
    refused load is followed by nothing but the message on standard
    error that reports it: no line is printed for that image or for an
    image after it, and nothing is loaded again. *)
Theorem first_failed_load_ends_run opts positional w pre c image roi err post :
  trace_of (main opts positional w) =
    pre ++ EvLoadImage c image roi err :: post ->
  err <> 0 ->
  outcome_of (main opts positional w) = Return EXIT_FAILURE /\
  post = [EvStderr (MsgFailedLoad image (vaal_strerror err))].
Proof.
  intros Ht Herr.
  destruct (main_stops opts positional w)
    as [Hok | (pre' & c' & image' & roi' & err' & Hne & Hpre & Ht' & Hr)].
  - exfalso. rewrite Ht in Hok. apply Forall_app in Hok.
    destruct Hok as [_ Hok]. inversion Hok as [| e l He _]; subst.
    apply He. exact Herr.
  - rewrite Ht in Ht'.
    destruct (only_bad_element failed_load pre' pre
                (EvLoadImage c image roi err) (EvLoadImage c' image' roi' err')
                post [EvStderr (MsgFailedLoad image' (vaal_strerror err'))])
      as (_ & Hx & Hpost);
      [ exact Hpre
      | repeat constructor; cbn; tauto
      | exact Herr
      | exact Ht'
      | ].
    inversion Hx; subst. split; [exact Hr | reflexivity].
Qed.


(** ** The [boxes] buffer *)

Lemma box_body_within cap image w h j st :
  (j < List.length (boxes st))%nat -> Z.of_nat j < cap ->
  holds (box_body image w h j st) (box_event_within cap)
    (fun st' => boxes st' = boxes st /\ num_boxes st' = num_boxes st)
    (fun _ => True) False.
Proof.
  intros Hlen Hcap. unfold box_body.
  eapply holds_bind; [apply holds_read_box_within; exact Hlen | intros box _].
  cbv zeta. unfold_calls.
  eapply holds_bind; [apply holds_call; intro; constructor | intros start _].
  eapply holds_bind; [apply holds_call; intro; repeat constructor | intros err _].
  destruct (negb (err =? 0)%Z).
  { eapply holds_bind; [apply holds_emit; exact I | intros _ _].
    apply holds_exit; exact I. }
  eapply holds_bind; [apply holds_call; intro; constructor | intros now _].
  eapply holds_bind; [apply holds_call; intro; constructor | intros start' _].
  eapply holds_bind; [apply holds_call; intro; repeat constructor | intros err' _].
  eapply holds_bind; [apply holds_call; intro; constructor | intros now' _].
  destruct (negb (err' =? 0)%Z).
  { eapply holds_bind; [apply holds_emit; exact I | intros _ _].
    apply holds_exit; exact I. }
  eapply holds_bind; [apply holds_get_euler; intro; exact I | intros [e st'] Hst].
  destruct (negb (e =? 0)%Z).
  { eapply holds_bind; [apply holds_emit; exact I | intros _ _].
    apply holds_exit; exact I. }
  eapply holds_bind; [apply holds_emit; exact Hcap | intros _ _].
  apply holds_ret. exact Hst.
Qed.

Lemma single_stage_within cap image st :
  boxes_fit cap st ->
  holds (single_stage image st) (box_event_within cap)
    (boxes_fit cap) (fun _ => True) False.
Proof.
  intros Hfit. unfold single_stage. unfold_calls.
  eapply holds_bind; [apply holds_call; intro; constructor | intros start _].
  eapply holds_bind; [apply holds_call; intro; repeat constructor | intros err _].
  destruct (negb (err =? 0)%Z).
  { eapply holds_bind; [apply holds_emit; exact I | intros _ _].
    apply holds_exit; exact I. }
  eapply holds_bind; [apply holds_call; intro; constructor | intros now _].
  eapply holds_bind; [apply holds_call; intro; constructor | intros start' _].
  eapply holds_bind; [apply holds_call; intro; repeat constructor | intros err' _].
  eapply holds_bind; [apply holds_call; intro; constructor | intros now' _].
  destruct (negb (err' =? 0)%Z).
  { eapply holds_bind; [apply holds_emit; exact I | intros _ _].
    apply holds_exit; exact I. }
  eapply holds_bind; [apply holds_call; intro; constructor | intros start'' _].
  eapply holds_bind; [apply holds_get_euler; intro; exact I | intros [e st'] [Hb Hn]].
  destruct (negb (e =? 0)%Z).
  { eapply holds_bind; [apply holds_emit; exact I | intros _ _].
    apply holds_exit; exact I. }
  eapply holds_bind; [apply holds_call; intro; constructor | intros now'' _].
  eapply holds_bind; [apply holds_emit; exact I | intros _ _].
  apply holds_ret. cbn in Hb, Hn. destruct Hfit as [Hl Hc].
  split; [rewrite Hb; exact Hl | rewrite Hn; exact Hc].
Qed.

Lemma two_stage_within cfg image st :
  boxes_contract -> boxes_fit (max_detection cfg) st ->
  holds (two_stage cfg image st) (box_event_within (max_detection cfg))
    (boxes_fit (max_detection cfg)) (fun _ => True) False.
Proof.
  intros Hc Hfit. unfold two_stage. unfold_calls.
  eapply holds_bind; [apply holds_emit; exact I | intros _ _].
  eapply holds_bind; [apply holds_call; intro; constructor | intros [[e w] h] _].
  eapply holds_bind; [apply holds_emit; exact I | intros _ _].
  eapply holds_bind; [apply holds_call; intro; repeat constructor | intros err _].
  destruct (negb (err =? 0)%Z).
  { eapply holds_bind; [apply holds_emit; exact I | intros _ _].
    apply holds_exit; exact I. }
  eapply holds_bind; [apply holds_call; intro; repeat constructor | intros err' _].
  eapply holds_bind.
  { apply holds_get_boxes_fit; [exact Hc | exact Hfit | ].
    intros e' n Hn. cbn. repeat split. exact Hn. }
  intros [e' st1] Hfit1. cbn in Hfit1. destruct Hfit1 as [Hl1 Hn1].
  apply holds_weaken with
    (E := box_event_within (max_detection cfg))
    (N := fun s => boxes s = boxes st1 /\ num_boxes s = num_boxes st1)
    (X := fun _ => True) (F := False);
    [ | auto | | auto | auto].
  - apply holds_for_each; [ | split; reflexivity].
    intros j s Hj [Hb Hn]. apply in_seq in Hj.
    apply holds_weaken with
      (E := box_event_within (max_detection cfg))
      (N := fun s' => boxes s' = boxes s /\ num_boxes s' = num_boxes s)
      (X := fun _ => True) (F := False);
      [ apply box_body_within | auto | | auto | auto ].
    + rewrite Hb, Hl1. lia.
    + lia.
    + intros s' [Hb' Hn']. split; congruence.
  - intros s [Hb Hn]. split; [rewrite Hb; exact Hl1 | rewrite Hn; exact Hn1].
Qed.

Lemma run_within cfg positional :
  boxes_contract -> 1 <= max_detection cfg ->
  holds (run cfg positional) (box_event_within (max_detection cfg))
    (fun _ => True) (fun _ => True) False.
Proof.
  intros Hc Hmax. destruct positional as [| model images]; cbn [run].
  - holds_go.
  - eapply holds_bind with (N1 := fun _ => True).
    { unfold startup, probe_faces. holds_go. }
    intros fd _.
    eapply holds_bind with (N1 := boxes_fit (max_detection cfg)).
    + apply holds_for_each.
      * intros image st _ Hfit. unfold image_body. destruct fd.
        -- apply two_stage_within; assumption.
        -- apply single_stage_within; assumption.
      * split; cbn; [apply repeat_length | lia].
    + intros _ _. unfold shutdown. holds_go.
Qed.

(** C10.  If box retrieval keeps the count within the capacity it is
    given, [main] never reads outside the [boxes] buffer; and once the
    options are read, the buffer is allocated with [max_detection]
    elements, box retrieval is called on the face session with capacity
    [max_detection] and leaves a count within it, and every box printed
    has an index below [max_detection]. *)
Theorem boxes_within_capacity opts positional w :
  boxes_contract ->
  outcome_of (main opts positional w) <> Fault /\
  forall cfg,
    outcome_of (options_loop opts initial_config w) = Next cfg ->
    Forall (box_event_within (max_detection cfg))
      (trace_of (main opts positional w)).
Proof.
  intros Hc.
  destruct (outcome_of (options_loop opts initial_config w)) as [cfg | c | ] eqn:Hp.
  - rewrite (main_parsed _ positional _ _ Hp).
    assert (Hmax : 1 <= max_detection cfg).
    { apply (options_loop_max_detection opts initial_config cfg w Hp). cbn; lia. }
    destruct (run_within cfg positional Hc Hmax w) as [Ht Hr].
    split.
    + intros Hf. rewrite Hf in Hr. exact Hr.
    + intros cfg' Heq. inversion Heq; subst. exact Ht.
  - rewrite (main_not_parsed _ positional _ _ Hp). split; [discriminate | ].
    intros cfg Heq; discriminate.
  - destruct (options_loop_result opts initial_config w) as [_ Hr].
    rewrite Hp in Hr. contradiction.
Qed.


(** ** The face session's inference *)

(** Whatever [vaal_run_model] returns for the face session, an image whose
    load succeeded goes on to box retrieval and the box loop: the error
    appears in the event and nowhere else. *)
Lemma face_inference_error_dropped cfg image st w e iw ih w1 w2 rerr w3 :
  vaal_image_file_resolution image w = ((e, iw, ih), w1) ->
  vaal_load_image_file faces_ctx image None w1 = (0, w2) ->
  vaal_run_model faces_ctx w2 = (rerr, w3) ->
  let rest :=
    ('(_, st1) <- get_boxes faces_ctx (max_detection cfg) st ;;
     for_each (seq 0 (num_boxes st1)) (box_body image iw ih) st1) w3 in
  two_stage cfg image st w =
    (outcome_of rest,
     [EvStdout MsgBoxHeader;
      EvStdout (MsgResolution iw ih);
      EvLoadImage faces_ctx image None 0;
      EvRunModel faces_ctx rerr] ++ trace_of rest,
     world_of rest).
Proof.
  intros Hres Hload Hrun rest. subst rest. unfold two_stage. unfold_calls.
  unfold bind, emit, call, outcome_of, trace_of, world_of.
  rewrite Hres, Hload. cbn [Z.eqb negb]. rewrite Hrun.
  destruct (get_boxes faces_ctx (max_detection cfg) st w3)
    as [[[[berr st1] | c | ] t] w4]; cbn; try reflexivity.
  destruct (for_each (seq 0 (num_boxes st1)) (box_body image iw ih) st1 w4)
    as [[r t'] w5]; reflexivity.
Qed.

(** The five modes of [--norm]. *)
Lemma norm_modes cfg w :
  option_case "n" "raw" cfg w = (Next (set_norm cfg 0), [], w) /\
  option_case "n" "signed" cfg w =
    (Next (set_norm cfg VAAL_IMAGE_PROC_SIGNED_NORM), [], w) /\
  option_case "n" "unsigned" cfg w =
    (Next (set_norm cfg VAAL_IMAGE_PROC_UNSIGNED_NORM), [], w) /\
  option_case "n" "whitening" cfg w =
    (Next (set_norm cfg VAAL_IMAGE_PROC_WHITENING), [], w) /\
  option_case "n" "imagenet" cfg w =
    (Next (set_norm cfg VAAL_IMAGE_PROC_IMAGENET), [], w).
Proof. repeat split; reflexivity. Qed.


End Theory.

(** * The traces of [main] *)

Section Coverage.
Context {World : Type} {libc : Libc} {lib : VAAL World}.

Local Abbreviation M := (M World).

Ltac unfold_driver :=
  unfold printf, fprintf_stderr, calloc, free, clock_now, context_create,
    load_model_file, parameter_seti, parameter_setf, model_probe,
    image_file_resolution, load_image_file, run_model, context_release,
    get_boxes, get_euler, read_box;
  unfold bind, emit, call, call_, ret, exit, fault.

Ltac run_calls :=
  repeat
    (cbn [negb fst snd app];
     match goal with
     | |- context [vaal_clock_now ?w] =>
         destruct (vaal_clock_now w) as [? ?]
     | |- context [vaal_image_file_resolution ?i ?w] =>
         destruct (vaal_image_file_resolution i w) as [[[? ?] ?] ?]
     | |- context [vaal_load_image_file ?c ?i ?r ?w] =>
         let e := fresh "err" in
         destruct (vaal_load_image_file c i r w) as [e ?];
         destruct (Z.eqb_spec e 0); [subst e | ]
     | |- context [vaal_run_model ?c ?w] =>
         let e := fresh "err" in
         destruct (vaal_run_model c w) as [e ?];
         lazymatch goal with
         | |- context [(e =? 0)%Z] => destruct (Z.eqb_spec e 0); [subst e | ]
         | _ => idtac
         end
     | |- context [vaal_euler ?c ?o ?n ?w] =>
         let e := fresh "err" in
         destruct (vaal_euler c o n w) as [[[e ?] ?] ?];
         destruct (Z.eqb_spec e 0); [subst e | ]
     | |- context [vaal_boxes ?c ?b ?m ?n ?w] =>
         destruct (vaal_boxes c b m n w) as [[[? ?] ?] ?]
     end).

Lemma single_stage_follows cfg image st w :
  image_trace cfg false image
    (forget (outcome_of (single_stage image st w)))
    (trace_of (single_stage image st w)).
Proof.
  unfold single_stage, outcome_of, trace_of. unfold_driver. run_calls; cbn.
  - apply (single_printed cfg image
             [EvLoadImage pose_ctx image None 0; EvRunModel pose_ctx 0;
              EvEuler pose_ctx 0]).
    constructor.
  - apply single_refused. apply pose_decode_refused. assumption.
  - apply single_refused. apply pose_run_refused. assumption.
  - apply single_refused. apply pose_load_refused. assumption.
Qed.

Lemma box_body_follows image w h j st wd :
  box_loop_trace image j 1
    (forget (outcome_of (box_body image w h j st wd)))
    (trace_of (box_body image w h j st wd)).
Proof.
  unfold box_body, outcome_of, trace_of. unfold_driver.
  destruct (nth_error (boxes st) j) as [box | ]; [ | apply box_outside].
  run_calls; cbn.
  - eapply (box_printed image j 0 _
              [EvLoadImage pose_ctx image (Some _) 0; EvRunModel pose_ctx 0;
               EvEuler pose_ctx 0]).
    + constructor.
    + constructor.
  - eapply box_refused. apply pose_decode_refused. assumption.
  - eapply box_refused. apply pose_run_refused. assumption.
  - eapply box_refused. apply pose_load_refused. assumption.
Qed.

Lemma box_loop_step image j n r t r' t' :
  box_loop_trace image j 1 r t ->
  (r = Next tt -> box_loop_trace image (S j) n r' t') ->
  box_loop_trace image j (S n)
    (match r with Next _ => r' | _ => r end)
    (match r with Next _ => t ++ t' | _ => t end).
Proof.
  intros H Hrest.
  inversion H as [ | j0 n0 roi t0 pct box o r0 t0' Hp Hl | j0 n0 roi t0 Hp | ];
    subst.
  - inversion Hl; subst. rewrite <- app_assoc. cbn.
    eapply box_printed; [exact Hp | apply Hrest; reflexivity].
  - eapply box_refused; exact Hp.
  - apply box_outside.
Qed.

Lemma box_loop_follows image w h n :
  forall j st wd,
    box_loop_trace image j n
      (forget (outcome_of (for_each (seq j n) (box_body image w h) st wd)))
      (trace_of (for_each (seq j n) (box_body image w h) st wd)).
Proof.
  induction n as [| n IH]; intros j st wd; cbn [seq for_each].
  - constructor.
  - rewrite bind_run.
    pose proof (box_body_follows image w h j st wd) as Hb.
    unfold outcome_of, trace_of in *.
    destruct (box_body image w h j st wd) as [[[st' | c | ] t] w1];
      cbn [fst snd forget] in *.
    + apply (box_loop_step image j n (Next tt) t _ _ Hb).
      intros _. apply IH.
    + exact (box_loop_step image j n (Return c) t (Next tt) [] Hb
               (fun H => ltac:(discriminate))).
    + exact (box_loop_step image j n Fault t (Next tt) [] Hb
               (fun H => ltac:(discriminate))).
Qed.

Lemma two_stage_follows cfg image st w :
  image_trace cfg true image
    (forget (outcome_of (two_stage cfg image st w)))
    (trace_of (two_stage cfg image st w)).
Proof.
  unfold two_stage, outcome_of, trace_of. unfold_driver. run_calls.
  - match goal with
    | |- context [for_each (seq 0 ?n) (box_body image ?iw ?ih) ?s ?wd] =>
        pose proof (box_loop_follows image iw ih n 0 s wd) as Hl;
        unfold outcome_of, trace_of in Hl;
        destruct (for_each (seq 0 n) (box_body image iw ih) s wd) as [[r t] w']
    end.
    cbn in *. eapply (faces_detected cfg image). exact Hl.
  - cbn. apply faces_load_refused. assumption.
Qed.

Lemma image_body_follows cfg fd image st w :
  image_trace cfg fd image
    (forget (outcome_of (image_body cfg fd image st w)))
    (trace_of (image_body cfg fd image st w)).
Proof.
  unfold image_body. destruct fd.
  - apply two_stage_follows.
  - apply single_stage_follows.
Qed.

Lemma images_follow cfg fd images :
  forall st w,
    images_trace cfg fd images
      (forget (outcome_of (for_each images (image_body cfg fd) st w)))
      (trace_of (for_each images (image_body cfg fd) st w)).
Proof.
  induction images as [| image images IH]; intros st w; cbn [for_each].
  - constructor.
  - rewrite bind_run.
    pose proof (image_body_follows cfg fd image st w) as Hi.
    unfold outcome_of, trace_of in *.
    destruct (image_body cfg fd image st w) as [[[st' | c | ] t] w1];
      cbn [fst snd forget] in *.
    + eapply image_done; [exact Hi | apply IH].
    + apply image_stopped; [exact Hi | discriminate].
    + apply image_stopped; [exact Hi | discriminate].
Qed.

Lemma startup_outcomes cfg model w :
  match outcome_of (startup cfg model w) with
  | Next fd =>
      trace_of (startup cfg model w) = startup_trace cfg model fd /\
      (fd = true -> face_detect cfg = true)
  | Return c =>
      c = EXIT_FAILURE /\
      exists err,
        err <> 0 /\
        trace_of (startup cfg model w) =
          [EvCalloc boxes_buf (max_detection cfg);
           EvCalloc orientations_buf 1;
           EvCalloc roi_buf 4;
           EvContextCreate (engine cfg);
           EvLoadModel pose_ctx model err;
           EvStderr (MsgFailedLoadModel (vaal_strerror err))]
  | Fault => False
  end.
Proof.
  unfold startup, probe_faces, startup_trace, outcome_of, trace_of.
  unfold_driver. cbn.
  destruct (vaal_load_model_file pose_ctx model
              (vaal_context_create (engine cfg) w)) as [err w2].
  destruct (Z.eqb_spec err 0) as [-> | Hne]; cbn.
  - destruct (face_detect cfg); cbn; [ | split; [reflexivity | discriminate]].
    destruct (vaal_model_probe (engine cfg)
                (vaal_parameter_seti pose_ctx "normalization" (norm cfg) w2))
      as [[|] w3]; cbn; split; try reflexivity; discriminate.
  - split; [reflexivity | exists err; split; [exact Hne | reflexivity]].
Qed.

Lemma run_follows cfg positional w :
  run_trace cfg positional
    (outcome_of (run cfg positional w)) (trace_of (run cfg positional w)).
Proof.
  destruct positional as [| model images]; [constructor | ].
  rewrite run_result; cbv zeta.
  pose proof (startup_outcomes cfg model w) as Hs.
  destruct (outcome_of (startup cfg model w)) as [fd | c | ]; [ | | contradiction].
  - destruct Hs as [Hs Hfd].
    pose proof (images_follow cfg fd images (initial_locals cfg)
                  (world_of (startup cfg model w))) as Hl.
    destruct (outcome_of (for_each images (image_body cfg fd)
                            (initial_locals cfg) (world_of (startup cfg model w))))
      as [st | c | ]; cbn [outcome_of trace_of fst snd forget] in *; rewrite Hs.
    + apply run_completed; assumption.
    + apply run_stopped; [assumption | exact Hl | discriminate].
    + apply run_stopped; [assumption | exact Hl | discriminate].
  - destruct Hs as [-> [err [Hne Ht]]]. cbn [outcome_of trace_of fst snd].
    rewrite Ht. apply run_model_refused. exact Hne.
Qed.

(** [main] leaves from the option loop with one message, or reads its
    options and follows [run_trace]. *)
Lemma main_follows opts positional w :
  (exists cfg,
     outcome_of (options_loop opts initial_config w) = Next cfg /\
     run_trace cfg positional
       (outcome_of (main opts positional w)) (trace_of (main opts positional w))) \/
  (exists m,
     option_message m /\
     ((outcome_of (main opts positional w) = Return EXIT_SUCCESS /\
       trace_of (main opts positional w) = [EvStdout m]) \/
      (outcome_of (main opts positional w) = Return EXIT_FAILURE /\
       trace_of (main opts positional w) = [EvStderr m]))).
Proof.
  destruct (main_cases opts positional w) as [[cfg [Hp _]] | H]; [left | right; exact H].
  exists cfg. split; [exact Hp | ].
  rewrite (main_parsed _ positional _ _ Hp). apply run_follows.
Qed.

(** ** Every tested library error is final *)

Lemma checked_nonzero (err : Z) (m : Message) :
  err <> 0 -> (if (err =? 0)%Z then None else Some m) = Some m.
Proof. intros H. apply Z.eqb_neq in H. rewrite H. reflexivity. Qed.

Lemma final_after t0 r t :
  Forall unchecked t0 -> final r t -> final r (t0 ++ t).
Proof.
  intros H0 [H | (pre & e & m & -> & Hpre & He & Hr)].
  - left. apply Forall_app; split; assumption.
  - right. exists (t0 ++ pre), e, m. rewrite app_assoc.
    repeat split; try assumption. apply Forall_app; split; assumption.
Qed.

Lemma pose_pass_final image roi b t :
  pose_pass image roi b t ->
  if b then Forall unchecked t else final (Return EXIT_FAILURE) t.
Proof.
  intros H; inversion H as [err Hne | err Hne | err Hne | ]; subst.
  - right. exists [], (EvLoadImage pose_ctx image roi err),
      (MsgFailedLoad image (vaal_strerror err)).
    repeat split; [constructor | apply checked_nonzero; exact Hne].
  - right. exists [EvLoadImage pose_ctx image roi 0], (EvRunModel pose_ctx err),
      (MsgFailedRun (vaal_strerror err)).
    repeat split; [repeat constructor | apply checked_nonzero; exact Hne].
  - right. exists [EvLoadImage pose_ctx image roi 0; EvRunModel pose_ctx 0],
      (EvEuler pose_ctx err), MsgDecodeFailed.
    repeat split; [repeat constructor | apply checked_nonzero; exact Hne].
  - repeat constructor.
Qed.

Lemma box_loop_final image j n r t :
  box_loop_trace image j n r t ->
  final r t /\ (r = Next tt -> Forall unchecked t).
Proof.
  induction 1 as [ j | j n roi t pct box o r t' Hp Hl [IHf IHc] | j n roi t Hp | j n ].
  - split; [left | intros _]; constructor.
  - apply pose_pass_final in Hp.
    assert (Hpre : Forall unchecked (t ++ [EvStdout (MsgBoxLine j pct box o)])).
    { apply Forall_app; split; [exact Hp | repeat constructor]. }
    replace (t ++ EvStdout (MsgBoxLine j pct box o) :: t')
      with ((t ++ [EvStdout (MsgBoxLine j pct box o)]) ++ t')
      by (rewrite <- app_assoc; reflexivity).
    split.
    + apply final_after; assumption.
    + intros Hr. apply Forall_app; split; [exact Hpre | exact (IHc Hr)].
  - apply pose_pass_final in Hp. split; [exact Hp | discriminate].
  - split; [left; constructor | discriminate].
Qed.

Lemma image_final cfg fd image r t :
  image_trace cfg fd image r t ->
  final r t /\ (r = Next tt -> Forall unchecked t).
Proof.
  intros H;
    inversion H as [ image' t0 l i p o Hp | image' t0 Hp
                   | image' w h err Hne | image' w h rerr berr n r0 t0 Hl ];
    subst.
  - apply pose_pass_final in Hp.
    assert (Hall : Forall unchecked (t0 ++ [EvStdout (MsgPose l i p o)])).
    { apply Forall_app; split; [exact Hp | repeat constructor]. }
    split; [left; exact Hall | intros _; exact Hall].
  - apply pose_pass_final in Hp. split; [exact Hp | discriminate].
  - split; [ | discriminate].
    right. exists [EvStdout MsgBoxHeader; EvStdout (MsgResolution w h)],
      (EvLoadImage faces_ctx image None err),
      (MsgFailedLoad image (vaal_strerror err)).
    repeat split; [repeat constructor | apply checked_nonzero; exact Hne].
  - destruct (box_loop_final image 0 n r t0 Hl) as [Hf Hc].
    assert (Hpre : Forall unchecked
              [EvStdout MsgBoxHeader; EvStdout (MsgResolution w h);
               EvLoadImage faces_ctx image None 0; EvRunModel faces_ctx rerr;
               EvBoxes faces_ctx (max_detection cfg) berr n]).
    { repeat constructor. }
    split.
    + apply final_after; assumption.
    + intros Hr. apply Forall_app; split; [exact Hpre | exact (Hc Hr)].
Qed.

Lemma images_final cfg fd images r t :
  images_trace cfg fd images r t ->
  final r t /\ (r = Next tt -> Forall unchecked t).
Proof.
  induction 1 as [ | image images t r t' Hi Hl [IHf IHc] | image images r t Hi Hne ].
  - split; [left | intros _]; constructor.
  - destruct (image_final cfg fd image _ t Hi) as [_ Hc].
    specialize (Hc eq_refl). split.
    + apply final_after; assumption.
    + intros Hr. apply Forall_app; split; [exact Hc | exact (IHc Hr)].
  - destruct (image_final cfg fd image r t Hi) as [Hf _].
    split; [exact Hf | intros Hr; contradiction].
Qed.

Lemma startup_unchecked cfg model fd :
  Forall unchecked (startup_trace cfg model fd).
Proof.
  unfold startup_trace.
  destruct fd; [ | destruct (face_detect cfg)]; repeat constructor.
Qed.

Lemma run_final cfg positional r t :
  run_trace cfg positional r t -> final r t.
Proof.
  intros H;
    inversion H as [ | model images err Hne | model images fd t0 Hfd Hl
                   | model images fd r0 t0 Hfd Hl Hne ]; subst.
  - left. repeat constructor.
  - right.
    exists [EvCalloc boxes_buf (max_detection cfg); EvCalloc orientations_buf 1;
            EvCalloc roi_buf 4; EvContextCreate (engine cfg)],
      (EvLoadModel pose_ctx model err),
      (MsgFailedLoadModel (vaal_strerror err)).
    repeat split; [repeat constructor | apply checked_nonzero; exact Hne].
  - left. destruct (images_final cfg fd images _ t0 Hl) as [_ Hc].
    apply Forall_app; split; [apply startup_unchecked | ].
    apply Forall_app; split; [exact (Hc eq_refl) | ].
    unfold shutdown_trace. destruct fd; repeat constructor.
  - destruct (images_final cfg fd images _ t0 Hl) as [Hf _].
    apply final_after; [apply startup_unchecked | exact Hf].
Qed.

(** X1.  When [main] tests the result of a library call and finds an
    error (the model or an image does not load, the pose session's
    inference fails, the orientation does not decode), that call is the
    last one of the run: the only event after it is the message for it
    on standard error, and [main] returns [EXIT_FAILURE]. *)
Theorem checked_failure_is_final opts positional w pre e m post :
  trace_of (main opts positional w) = pre ++ e :: post ->
  checked_failure e = Some m ->
  outcome_of (main opts positional w) = Return EXIT_FAILURE /\
  post = [EvStderr m].
Proof.
  intros Ht He.
  assert (Hf : final (outcome_of (main opts positional w))
                     (trace_of (main opts positional w))).
  { destruct (main_follows opts positional w)
      as [[cfg [_ Hr]] | [m0 [_ [[_ Hm] | [_ Hm]]]]].
    - apply (run_final cfg positional). exact Hr.
    - left. rewrite Hm. repeat constructor.
    - left. rewrite Hm. repeat constructor. }
  rewrite Ht in Hf.
  destruct Hf as [Hok | (pre' & e' & m' & Heq & Hpre & He' & Hr)].
  - exfalso. apply Forall_app in Hok. destruct Hok as [_ Hok].
    inversion Hok as [| x l Hx _]; subst. unfold unchecked in Hx. congruence.
  - destruct (only_bad_element (fun x => checked_failure x <> None)
                pre' pre e e' post [EvStderr m']) as (_ & Hx & Hpost).
    + eapply Forall_impl; [ | exact Hpre]. unfold unchecked. intros a Ha Hn.
      contradiction.
    + repeat constructor. cbn. intros Hn. apply Hn. reflexivity.
    + congruence.
    + exact Heq.
    + subst e'. split; [exact Hr | ]. congruence.
Qed.

(** ** Failure and standard error *)











(** ** The image loop never returns success *)

Lemma box_loop_never_succeeds image j n r t :
  box_loop_trace image j n r t -> r <> Return EXIT_SUCCESS.
Proof. induction 1; try discriminate; assumption. Qed.

Lemma image_never_succeeds cfg fd image r t :
  image_trace cfg fd image r t -> r <> Return EXIT_SUCCESS.
Proof.
  intros H; inversion H; subst; try discriminate.
  eapply box_loop_never_succeeds; eassumption.
Qed.

Lemma images_never_succeed cfg fd images r t :
  images_trace cfg fd images r t -> r <> Return EXIT_SUCCESS.
Proof.
  induction 1; try discriminate; try assumption.
  eapply image_never_succeeds; eassumption.
Qed.

(** ** Without face detection *)

Lemma option_case_no_detect opt optarg cfg cfg' w :
  outcome_of (option_case opt optarg cfg w) = Next cfg' ->
  (opt = "d"%char \/ face_detect cfg = false) ->
  face_detect cfg' = false.
Proof.
  unfold option_case. intros H Hd.
  destruct (Ascii.eqb_spec opt "d") as [-> | Hne].
  - cbn in H. inversion H. reflexivity.
  - destruct Hd as [Hd | Hd]; [contradiction | ].
    revert H.
    repeat match goal with
           | |- context [if ?b then _ else _] => destruct b
           end;
      cbn; intros H; inversion H; subst; cbn; try exact Hd.
Qed.

Lemma no_detect_option opts :
  forall cfg cfg' w,
    outcome_of (options_loop opts cfg w) = Next cfg' ->
    ((exists optarg, In ("d"%char, optarg) opts) \/ face_detect cfg = false) ->
    face_detect cfg' = false.
Proof.
  induction opts as [| [opt optarg] rest IH]; intros cfg cfg' w H Hd.
  - cbn in H. inversion H; subst.
    destruct Hd as [[a []] | Hd]; exact Hd.
  - cbn [options_loop] in H. rewrite bind_run in H.
    destruct (option_case opt optarg cfg w) as [[[cfg1 | c | ] t] w1] eqn:Hoc;
      cbn in H; try discriminate.
    apply (IH cfg1 cfg' w1 H).
    destruct Hd as [[a [Ha | Ha]] | Hd].
    + right. inversion Ha; subst.
      apply (option_case_no_detect "d" a cfg cfg1 w);
        [rewrite Hoc; reflexivity | left; reflexivity].
    + left. exists a. exact Ha.
    + right. apply (option_case_no_detect opt optarg cfg cfg1 w);
        [rewrite Hoc; reflexivity | right; exact Hd].
Qed.

Lemma pose_pass_whole image b t :
  pose_pass image None b t ->
  Forall (fun e => ~ face_stage e) t /\ pose_lines t = [] /\ box_indices t = [].
Proof.
  intros H; inversion H; subst; repeat split; repeat constructor; cbn; tauto.
Qed.

Lemma single_images cfg images r t :
  images_trace cfg false images r t ->
  Forall (fun e => ~ face_stage e) t /\
  r <> Fault /\
  box_indices t = [] /\
  (r = Next tt -> List.length (pose_lines t) = List.length images).
Proof.
  induction 1 as [ | image images t r t' Hi Hl (IHf & IHr & IHb & IHn)
                 | image images r t Hi Hne ].
  - repeat split; [constructor | discriminate].
  - inversion Hi as [ image' t0 l i p o Hp | | | ]; subst.
    destruct (pose_pass_whole image true t0 Hp) as (Hf & Hp0 & Hb).
    unfold pose_lines, box_indices in *. rewrite !choose_app, Hp0, Hb, IHb. cbn.
    repeat split.
    + repeat (apply Forall_app; split); try assumption.
      repeat constructor. cbn. tauto.
    + exact IHr.
    + intros Hr. rewrite (IHn Hr). reflexivity.
  - inversion Hi as [ | image' t0 Hp | | ]; subst; [contradiction | ].
    destruct (pose_pass_whole image false t Hp) as (Hf & Hp0 & Hb).
    repeat split; [exact Hf | discriminate | exact Hb | discriminate].
Qed.

Lemma run_without_faces cfg positional r t :
  face_detect cfg = false ->
  run_trace cfg positional r t ->
  Forall (fun e => ~ face_stage e) t /\ r <> Fault /\ box_indices t = [] /\
  (r = Return EXIT_SUCCESS ->
   List.length (pose_lines t) = List.length (tl positional)).
Proof.
  intros Hfd H;
    inversion H as [ | model images err Hne | model images fd t0 Hfd' Hl
                   | model images fd r0 t0 Hfd' Hl Hne ]; subst.
  - repeat split; try discriminate; try (intros Hx; discriminate Hx).
    repeat constructor. cbn. tauto.
  - repeat split; try discriminate; try (intros Hx; discriminate Hx).
    repeat constructor; cbn; tauto.
  - destruct fd; [rewrite (Hfd' eq_refl) in Hfd; discriminate | ].
    destruct (single_images cfg images _ t0 Hl) as (Hf & _ & Hb & Hn).
    split; [ | split; [discriminate | ]].
    + apply Forall_app; split; [ | apply Forall_app; split; [exact Hf | ]].
      * unfold startup_trace. rewrite Hfd. repeat constructor; cbn; tauto.
      * repeat constructor; cbn; tauto.
    + unfold startup_trace, shutdown_trace. rewrite Hfd.
      unfold pose_lines, box_indices in *. rewrite !choose_app, Hb. cbn.
      split; [reflexivity | ].
      intros _. rewrite app_nil_r. apply Hn. reflexivity.
  - destruct fd; [rewrite (Hfd' eq_refl) in Hfd; discriminate | ].
    destruct (single_images cfg images _ t0 Hl) as (Hf & Hr & Hb & _).
    split; [ | split; [exact Hr | ]].
    + apply Forall_app; split; [ | exact Hf].
      unfold startup_trace. rewrite Hfd. repeat constructor; cbn; tauto.
    + unfold startup_trace. rewrite Hfd.
      unfold box_indices in *. rewrite !choose_app, Hb. cbn.
      split; [reflexivity | ].
      intros Hs. subst r. apply images_never_succeed in Hl. contradiction.
Qed.

(** X3.  With [-d] among the options, [main] never enters the
    face-detection stage: no probe, no call on a face session, no region
    handed to the pose session, no box header or box line; and it never
    reads the [boxes] buffer, so it cannot read outside it. *)
Theorem no_detect_skips_faces opts optarg positional w :
  In ("d"%char, optarg) opts ->
  Forall (fun e => ~ face_stage e) (trace_of (main opts positional w)) /\
  outcome_of (main opts positional w) <> Fault.
Proof.
  intros Hd.
  destruct (main_follows opts positional w)
    as [[cfg [Hp Hr]] | [m [Hm [[Ho Ht] | [Ho Ht]]]]].
  - assert (Hfd : face_detect cfg = false).
    { apply (no_detect_option opts initial_config cfg w Hp).
      left. exists optarg. exact Hd. }
    destruct (run_without_faces cfg positional _ _ Hfd Hr) as (Hf & Hn & _).
    split; assumption.
  - rewrite Ho, Ht. split; [ | discriminate].
    repeat constructor. destruct m; cbn in *; tauto.
  - rewrite Ho, Ht. split; [ | discriminate].
    repeat constructor. cbn. tauto.
Qed.



(** ** The images in order *)

Lemma whole_loads_app t1 t2 : whole_loads (t1 ++ t2) = whole_loads t1 ++ whole_loads t2.
Proof. apply choose_app. Qed.

Lemma pose_pass_loads image roi b t :
  pose_pass image roi b t ->
  whole_loads t = match roi with None => [image] | Some _ => [] end.
Proof. intros H; inversion H; subst; destruct roi; reflexivity. Qed.

Lemma box_loop_loads image j n r t :
  box_loop_trace image j n r t -> whole_loads t = [].
Proof.
  induction 1 as [ j | j n roi t pct box o r t' Hp Hl IH | j n roi t Hp | j n ];
    try reflexivity.
  - rewrite whole_loads_app, (pose_pass_loads _ _ _ _ Hp). exact IH.
  - exact (pose_pass_loads _ _ _ _ Hp).
Qed.

Lemma image_loads cfg fd image r t :
  image_trace cfg fd image r t -> whole_loads t = [image].
Proof.
  intros H;
    inversion H as [ image' t0 l i p o Hp | image' t0 Hp
                   | image' w h err Hne | image' w h rerr berr n r0 t0 Hl ];
    subst; try reflexivity.
  - rewrite whole_loads_app, (pose_pass_loads _ _ _ _ Hp). reflexivity.
  - exact (pose_pass_loads _ _ _ _ Hp).
  - rewrite whole_loads_app, (box_loop_loads _ _ _ _ _ Hl). reflexivity.
Qed.

Lemma images_loads cfg fd images r t :
  images_trace cfg fd images r t ->
  exists rest,
    images = whole_loads t ++ rest /\ (r = Next tt -> rest = []).
Proof.
  induction 1 as [ | image images t r t' Hi Hl [rest [IH IHr]]
                 | image images r t Hi Hne ].
  - exists []. split; reflexivity.
  - exists rest. rewrite whole_loads_app, (image_loads _ _ _ _ _ Hi).
    split; [cbn; rewrite <- IH; reflexivity | exact IHr].
  - exists images. rewrite (image_loads _ _ _ _ _ Hi).
    split; [reflexivity | intros Hr; contradiction].
Qed.

Lemma startup_loads cfg model fd : whole_loads (startup_trace cfg model fd) = [].
Proof.
  unfold startup_trace. destruct fd; [ | destruct (face_detect cfg)]; reflexivity.
Qed.

(** X5.  The images are taken in the order of the command line, one at a
    time and none twice: the images loaded whole into a session (the
    first stage of either mode) are the first images given after the
    model, in order; when [main] returns [EXIT_SUCCESS] they are all of
    them. *)
Theorem images_loaded_in_order opts model images w cfg :
  outcome_of (options_loop opts initial_config w) = Next cfg ->
  exists rest,
    images = whole_loads (trace_of (main opts (model :: images) w)) ++ rest /\
    (outcome_of (main opts (model :: images) w) = Return EXIT_SUCCESS ->
     rest = []).
Proof.
  intros Hp.
  pose proof (run_follows cfg (model :: images) w) as Hr.
  rewrite <- (main_parsed _ _ _ _ Hp) in Hr.
  set (t := trace_of (main opts (model :: images) w)) in *.
  set (r := outcome_of (main opts (model :: images) w)) in *.
  clearbody t r.
  inversion Hr as [ | model' images' err Hne | model' images' fd t0 Hfd Hl
                  | model' images' fd r0 t0 Hfd Hl Hne ]; subst.
  - exists images. split; [reflexivity | discriminate].
  - destruct (images_loads _ _ _ _ _ Hl) as [rest [Hi Hrest]].
    exists rest. rewrite !whole_loads_app, startup_loads.
    replace (whole_loads (shutdown_trace fd)) with (@nil string)
      by (destruct fd; reflexivity).
    rewrite app_nil_r. split; [exact Hi | intros _; apply Hrest; reflexivity].
  - destruct (images_loads _ _ _ _ _ Hl) as [rest [Hi _]].
    exists rest. rewrite whole_loads_app, startup_loads.
    split; [exact Hi | ].
    intros Hs. subst r. apply images_never_succeed in Hl. contradiction.
Qed.

(** ** The boxes printed *)

Lemma box_indices_app t1 t2 : box_indices (t1 ++ t2) = box_indices t1 ++ box_indices t2.
Proof. apply choose_app. Qed.

Lemma box_counts_app t1 t2 : box_counts (t1 ++ t2) = box_counts t1 ++ box_counts t2.
Proof. apply choose_app. Qed.

Lemma pose_pass_boxes image roi b t :
  pose_pass image roi b t -> box_indices t = [] /\ box_counts t = [].
Proof. intros H; inversion H; subst; split; reflexivity. Qed.

Lemma box_loop_indices image j n r t :
  box_loop_trace image j n r t ->
  box_counts t = [] /\
  exists k, box_indices t = seq j k /\ (k <= n)%nat /\ (r = Next tt -> k = n).
Proof.
  induction 1 as [ j | j n roi t pct box o r t' Hp Hl [IHc (k & IHi & IHk & IHn)]
                 | j n roi t Hp | j n ].
  - split; [reflexivity | exists 0%nat; repeat split; lia].
  - destruct (pose_pass_boxes _ _ _ _ Hp) as [Hi Hc].
    rewrite box_counts_app, box_indices_app, Hi, Hc.
    change (box_counts (EvStdout (MsgBoxLine j pct box o) :: t'))
      with (box_counts t').
    change (box_indices (EvStdout (MsgBoxLine j pct box o) :: t'))
      with (j :: box_indices t').
    split; [exact IHc | ].
    exists (S k). cbn [app seq]. rewrite IHi.
    repeat split; [lia | intros Hr; rewrite (IHn Hr); reflexivity].
  - destruct (pose_pass_boxes _ _ _ _ Hp) as [Hi Hc].
    split; [exact Hc | exists 0%nat; rewrite Hi; repeat split; [lia | discriminate]].
  - split; [reflexivity | exists 0%nat; repeat split; [lia | discriminate]].
Qed.

Lemma boxes_due_app t1 t2 : boxes_due (t1 ++ t2) = boxes_due t1 ++ boxes_due t2.
Proof. unfold boxes_due. rewrite box_counts_app. apply flat_map_app. Qed.

Lemma image_boxes cfg fd image r t :
  image_trace cfg fd image r t ->
  exists rest,
    boxes_due t = box_indices t ++ rest /\ (r = Next tt -> rest = []).
Proof.
  intros H;
    inversion H as [ image' t0 l i p o Hp | image' t0 Hp
                   | image' w h err Hne | image' w h rerr berr n r0 t0 Hl ];
    subst.
  - destruct (pose_pass_boxes _ _ _ _ Hp) as [Hi Hc].
    exists []. unfold boxes_due.
    rewrite box_counts_app, box_indices_app, Hi, Hc. split; reflexivity.
  - destruct (pose_pass_boxes _ _ _ _ Hp) as [Hi Hc].
    exists []. unfold boxes_due. rewrite Hi, Hc. split; reflexivity.
  - exists []. split; reflexivity.
  - destruct (box_loop_indices _ _ _ _ _ Hl) as [Hc (k & Hi & Hk & Hn)].
    exists (seq k (n - k)). unfold boxes_due.
    rewrite box_counts_app, box_indices_app, Hi, Hc. cbn.
    rewrite app_nil_r. split.
    + replace n with (k + (n - k))%nat at 1 by lia. apply seq_app.
    + intros Hr. rewrite (Hn Hr), Nat.sub_diag. reflexivity.
Qed.

Lemma images_boxes cfg fd images r t :
  images_trace cfg fd images r t ->
  exists rest,
    boxes_due t = box_indices t ++ rest /\ (r = Next tt -> rest = []).
Proof.
  induction 1 as [ | image images t r t' Hi Hl [rest [IH IHr]]
                 | image images r t Hi Hne ].
  - exists []. split; reflexivity.
  - destruct (image_boxes _ _ _ _ _ Hi) as [rest0 [H0 Hr0]].
    rewrite (Hr0 eq_refl), app_nil_r in H0.
    exists rest. rewrite boxes_due_app, box_indices_app, H0, IH, app_assoc.
    split; [reflexivity | exact IHr].
  - destruct (image_boxes _ _ _ _ _ Hi) as [rest0 [H0 _]].
    exists rest0. split; [exact H0 | intros Hr; contradiction].
Qed.

Lemma startup_boxes cfg model fd :
  boxes_due (startup_trace cfg model fd) = [] /\
  box_indices (startup_trace cfg model fd) = [].
Proof.
  unfold startup_trace.
  destruct fd; [ | destruct (face_detect cfg)]; split; reflexivity.
Qed.

(** X6.  Whatever error box retrieval and the face session's inference
    return, a retrieval that leaves the count [n] is followed by the
    boxes 0, 1, ..., [n-1] in this order, each printed once, before the
    next image is touched: the indices printed in a run are an initial
    part of the indices its counts call for, and all of them when [main]
    returns [EXIT_SUCCESS]. *)
Theorem boxes_printed_in_order opts positional w :
  exists rest,
    flat_map (seq 0) (box_counts (trace_of (main opts positional w))) =
      box_indices (trace_of (main opts positional w)) ++ rest /\
    (outcome_of (main opts positional w) = Return EXIT_SUCCESS -> rest = []).
Proof.
  change (exists rest,
             boxes_due (trace_of (main opts positional w)) =
               box_indices (trace_of (main opts positional w)) ++ rest /\
             (outcome_of (main opts positional w) = Return EXIT_SUCCESS ->
              rest = [])).
  destruct (main_follows opts positional w)
    as [[cfg [_ Hr]] | [m [Hm [[Ho Ht] | [Ho Ht]]]]].
  - set (t := trace_of (main opts positional w)) in *.
    set (r := outcome_of (main opts positional w)) in *.
    clearbody t r.
    inversion Hr as [ | model images err Hne | model images fd t0 Hfd Hl
                    | model images fd r0 t0 Hfd Hl Hne ]; subst.
    + exists []. split; reflexivity.
    + exists []. split; reflexivity.
    + destruct (images_boxes _ _ _ _ _ Hl) as [rest [Hi Hrest]].
      destruct (startup_boxes cfg model fd) as [Hd Hx].
      exists rest. rewrite !boxes_due_app, !box_indices_app, Hd, Hx, Hi.
      replace (boxes_due (shutdown_trace fd)) with (@nil nat)
        by (destruct fd; reflexivity).
      replace (box_indices (shutdown_trace fd)) with (@nil nat)
        by (destruct fd; reflexivity).
      rewrite (Hrest eq_refl), !app_nil_r. split; reflexivity.
    + destruct (images_boxes _ _ _ _ _ Hl) as [rest [Hi _]].
      destruct (startup_boxes cfg model fd) as [Hd Hx].
      exists rest. rewrite !boxes_due_app, !box_indices_app, Hd, Hx, Hi.
      split; [reflexivity | ].
      intros Hs. subst r. apply images_never_succeed in Hl. contradiction.
  - rewrite Ht. exists [].
    split; [destruct m; cbn in Hm; try contradiction; reflexivity | reflexivity].
  - rewrite Ht. exists []. split; reflexivity.
Qed.


(** ** The regions handed to the pose session *)









(** ** The sizes of the buffers *)

Lemma loop_event_buffer cfg e : loop_event cfg e -> buffer_size_ok e.
Proof.
  destruct e as [m | m | | | | | | | | | | | | ]; try destruct m; cbn; tauto.
Qed.

(** X8.  Whatever the options, the [boxes] buffer is allocated with at
    least one element, [orientations] with one and [roi] with four. *)
Theorem buffers_have_room opts positional w :
  Forall buffer_size_ok (trace_of (main opts positional w)).
Proof.
  destruct (main_cases opts positional w)
    as [[cfg [Hp Hs]] | [m [_ [[_ Ht] | [_ Ht]]]]];
    try (rewrite Ht; repeat constructor).
  assert (Hmax : 1 <= max_detection cfg).
  { apply (options_loop_max_detection opts initial_config cfg w Hp). cbn; lia. }
  assert (Hstart : forall model fd,
             Forall buffer_size_ok (startup_trace cfg model fd)).
  { intros model fd. unfold startup_trace.
    destruct fd; [ | destruct (face_detect cfg)]; repeat constructor; exact Hmax. }
  assert (Hloop : forall t, Forall (loop_event cfg) t -> Forall buffer_size_ok t).
  { intros t. apply Forall_impl. apply loop_event_buffer. }
  set (tr := trace_of (main opts positional w)) in *. clearbody tr.
  inversion Hs as [ Hpos Hout Htr
                  | model images err reason Hpos Hout Htr
                  | model images fd t Ht Hpos Hout Htr
                  | model images fd t Ht Hpos Hout Htr
                  | model images fd t Ht Hpos Hout Htr ];
    subst tr.
  - repeat constructor.
  - repeat constructor. exact Hmax.
  - apply Forall_app; split; [apply Hstart | apply Hloop; exact Ht].
  - apply Forall_app; split; [apply Hstart | apply Hloop; exact Ht].
  - apply Forall_app; split; [apply Hstart | ].
    apply Forall_app; split; [apply Hloop; exact Ht | ].
    unfold shutdown_trace. destruct fd; repeat constructor.
Qed.

(** ** Order of configuration, use and release *)

Lemma tail_of_second {A} (R : A -> Prop) (l1 : list A) :
  forall l2 pre e post,
    Forall (fun a => ~ R a) l1 -> Forall R l2 ->
    l1 ++ l2 = pre ++ e :: post -> R e ->
    Forall R post.
Proof.
  induction l1 as [| a l1 IH]; intros l2 pre e post H1 H2 Heq He.
  - cbn in Heq. subst l2. apply Forall_app in H2. destruct H2 as [_ H2].
    inversion H2; assumption.
  - inversion H1 as [| a' l1' Ha H1']; subst.
    destruct pre as [| p pre]; cbn in Heq; inversion Heq; subst.
    + contradiction.
    + eapply IH; eassumption.
Qed.

Lemma head_of_first {A} (S U : A -> Prop) (l1 : list A) :
  forall l2 pre e post,
    Forall (fun a => ~ U a) l1 -> Forall (fun a => ~ S a) l2 ->
    l1 ++ l2 = pre ++ e :: post -> S e ->
    Forall (fun a => ~ U a) pre.
Proof.
  induction l1 as [| a l1 IH]; intros l2 pre e post H1 H2 Heq He.
  - cbn in Heq. subst l2. apply Forall_app in H2. destruct H2 as [_ H2].
    inversion H2; contradiction.
  - inversion H1 as [| a' l1' Ha H1']; subst.
    destruct pre as [| p pre]; cbn in Heq; inversion Heq; subst.
    + constructor.
    + constructor; [exact Ha | eapply IH; eassumption].
Qed.

Lemma startup_releases_nothing cfg model fd :
  Forall (fun e => ~ releases e <> None) (startup_trace cfg model fd).
Proof.
  unfold startup_trace.
  destruct fd; [ | destruct (face_detect cfg)]; repeat constructor;
    cbn; intros H; apply H; reflexivity.
Qed.

Lemma loop_keeps cfg t :
  Forall (loop_event cfg) t ->
  Forall (fun e => ~ releases e <> None) t /\
  Forall (fun e => ~ is_setting e <> None) t.
Proof.
  intros H; split; (eapply Forall_impl; [ | exact H]); intros e He Hn; apply Hn.
  - apply (loop_event_releases cfg); exact He.
  - apply (loop_event_is_setting cfg); exact He.
Qed.

(** X9.  Sessions and buffers are released only at the very end of a
    successful run: once one is released, [main] returns [EXIT_SUCCESS]
    and every later event is another release, so nothing is loaded, run,
    read or printed after it. *)
Theorem nothing_after_release opts positional w pre e post :
  trace_of (main opts positional w) = pre ++ e :: post ->
  releases e <> None ->
  outcome_of (main opts positional w) = Return EXIT_SUCCESS /\
  Forall (fun x => releases x <> None) post.
Proof.
  intros Heq He.
  assert (Hnone : forall l : list Event,
             Forall (fun x => ~ releases x <> None) l ->
             l = pre ++ e :: post -> False).
  { intros l Hl ->. apply Forall_app in Hl. destruct Hl as [_ Hl].
    inversion Hl; contradiction. }
  destruct (main_cases opts positional w)
    as [[cfg [_ Hs]] | [m [_ [[_ Ht] | [_ Ht]]]]].
  - set (r := outcome_of (main opts positional w)) in *.
    set (tr := trace_of (main opts positional w)) in *. clearbody r tr.
    inversion Hs as [ Hpos Hout Htr
                    | model images err reason Hpos Hout Htr
                    | model images fd t Ht Hpos Hout Htr
                    | model images fd t Ht Hpos Hout Htr
                    | model images fd t Ht Hpos Hout Htr ]; subst r tr.
    + exfalso. apply (Hnone [EvStderr MsgMissingModel]); [ | exact Htr].
      repeat constructor. cbn. intros H; apply H; reflexivity.
    + exfalso. eapply Hnone; [ | exact Htr].
      repeat constructor; cbn; intros H; apply H; reflexivity.
    + exfalso. eapply Hnone; [ | exact Htr].
      apply Forall_app; split;
        [apply startup_releases_nothing | apply (loop_keeps cfg t Ht)].
    + exfalso. eapply Hnone; [ | exact Htr].
      apply Forall_app; split;
        [apply startup_releases_nothing | apply (loop_keeps cfg t Ht)].
    + split; [reflexivity | ].
      rewrite app_assoc in Htr.
      apply (tail_of_second (fun x => releases x <> None)
               (startup_trace cfg model fd ++ t) (shutdown_trace fd) pre e post);
        [ | | exact Htr | exact He].
      * apply Forall_app; split;
          [apply startup_releases_nothing | apply (loop_keeps cfg t Ht)].
      * unfold shutdown_trace. destruct fd; repeat constructor; discriminate.
  - exfalso. rewrite Ht in Heq. apply (Hnone [EvStdout m]); [ | exact Heq].
    repeat constructor. cbn. intros H; apply H; reflexivity.
  - exfalso. rewrite Ht in Heq. apply (Hnone [EvStderr m]); [ | exact Heq].
    repeat constructor. cbn. intros H; apply H; reflexivity.
Qed.

(** X10.  Both sessions are fully configured before any image is
    handled: no image is loaded, no session is run and no result is read
    before the last parameter is set. *)
Theorem sessions_configured_first opts positional w pre e post :
  trace_of (main opts positional w) = pre ++ e :: post ->
  is_setting e <> None ->
  Forall (fun x => ~ uses_session x) pre.
Proof.
  intros Heq He.
  assert (Hnone : forall l : list Event,
             Forall (fun x => ~ is_setting x <> None) l ->
             l = pre ++ e :: post -> False).
  { intros l Hl ->. apply Forall_app in Hl. destruct Hl as [_ Hl].
    inversion Hl; contradiction. }
  assert (Hstart : forall cfg model fd,
             Forall (fun x => ~ uses_session x) (startup_trace cfg model fd)).
  { intros cfg model fd. unfold startup_trace.
    destruct fd; [ | destruct (face_detect cfg)]; repeat constructor; cbn; tauto. }
  assert (Hshut : forall fd,
             Forall (fun x => ~ is_setting x <> None) (shutdown_trace fd)).
  { intros fd. unfold shutdown_trace.
    destruct fd; repeat constructor; cbn; intros H; apply H; reflexivity. }
  destruct (main_cases opts positional w)
    as [[cfg [_ Hs]] | [m [_ [[_ Ht] | [_ Ht]]]]].
  - set (r := outcome_of (main opts positional w)) in *.
    set (tr := trace_of (main opts positional w)) in *. clearbody r tr.
    inversion Hs as [ Hpos Hout Htr
                    | model images err reason Hpos Hout Htr
                    | model images fd t Ht Hpos Hout Htr
                    | model images fd t Ht Hpos Hout Htr
                    | model images fd t Ht Hpos Hout Htr ]; subst r tr.
    + exfalso. apply (Hnone [EvStderr MsgMissingModel]); [ | exact Htr].
      repeat constructor. cbn. intros H; apply H; reflexivity.
    + exfalso. eapply Hnone; [ | exact Htr].
      repeat constructor; cbn; intros H; apply H; reflexivity.
    + apply (head_of_first (fun x => is_setting x <> None) uses_session
               (startup_trace cfg model fd) t pre e post);
        [apply Hstart | apply (loop_keeps cfg t Ht) | exact Htr | exact He].
    + apply (head_of_first (fun x => is_setting x <> None) uses_session
               (startup_trace cfg model fd) t pre e post);
        [apply Hstart | apply (loop_keeps cfg t Ht) | exact Htr | exact He].
    + apply (head_of_first (fun x => is_setting x <> None) uses_session
               (startup_trace cfg model fd) (t ++ shutdown_trace fd) pre e post);
        [apply Hstart | | exact Htr | exact He].
      apply Forall_app; split; [apply (loop_keeps cfg t Ht) | apply Hshut].
  - exfalso. rewrite Ht in Heq. apply (Hnone [EvStdout m]); [ | exact Heq].
    repeat constructor. cbn. intros H; apply H; reflexivity.
  - exfalso. rewrite Ht in Heq. apply (Hnone [EvStderr m]); [ | exact Heq].
    repeat constructor. cbn. intros H; apply H; reflexivity.
Qed.


(** ** Options that end the run *)

(** X11.  When the options before it are accepted, [-h] prints the usage
    text and [-v] the version of the library; either ends the run at once
    with [EXIT_SUCCESS], whatever follows on the command line, even an
    invalid option or no model at all, and without a call that changes
    the world. *)
Theorem help_and_version_exit pre optarg post positional w cfg :
  outcome_of (options_loop pre initial_config w) = Next cfg ->
  main (pre ++ ("h"%char, optarg) :: post) positional w =
    (Return EXIT_SUCCESS, [EvStdout USAGE], w) /\
  main (pre ++ ("v"%char, optarg) :: post) positional w =
    (Return EXIT_SUCCESS, [EvStdout (MsgVersion vaal_version)], w).
Proof.
  intros Hp. unfold main. split;
    rewrite bind_run, (options_loop_app pre _ _ _ _ Hp);
    cbn [options_loop]; rewrite bind_run; reflexivity.
Qed.

Lemma invalid_option opt optarg cfg w :
  ~ In opt ["h"; "v"; "m"; "t"; "u"; "n"; "e"; "d"]%char ->
  option_case opt optarg cfg w =
    (Return EXIT_FAILURE, [EvStderr (MsgInvalidParameter opt)], w).
Proof.
  intros H. unfold option_case.
  repeat match goal with
         | |- context [Ascii.eqb opt ?c] =>
             replace (Ascii.eqb opt c) with false
               by (symmetry; apply Ascii.eqb_neq; intros ->; apply H; cbn; tauto)
         end.
  reflexivity.
Qed.

(** X12.  When the options before it are accepted, an option character
    other than [h], [v], [m], [t], [u], [n], [e], [d] (what [getopt_long]
    returns for an unknown option or a missing argument) makes [main]
    print the invalid-parameter message with that character on standard
    error and return [EXIT_FAILURE], with no call to the library. *)
Theorem invalid_option_fails pre opt optarg post positional w cfg :
  ~ In opt ["h"; "v"; "m"; "t"; "u"; "n"; "e"; "d"]%char ->
  outcome_of (options_loop pre initial_config w) = Next cfg ->
  main (pre ++ (opt, optarg) :: post) positional w =
    (Return EXIT_FAILURE, [EvStderr (MsgInvalidParameter opt)], w).
Proof.
  intros Hn Hp. unfold main. rewrite bind_run.
  rewrite (options_loop_app pre _ _ _ _ Hp).
  cbn [options_loop]. rewrite bind_run.
  rewrite (invalid_option opt optarg cfg w Hn). reflexivity.
Qed.

(** ** The compute engine *)

Lemma option_case_engine opt optarg cfg cfg' w :
  outcome_of (option_case opt optarg cfg w) = Next cfg' ->
  engine cfg' = if (opt =? "e")%char then optarg else engine cfg.
Proof.
  unfold option_case.
  destruct (Ascii.eqb_spec opt "e") as [-> | Hne].
  - cbn. intros H; inversion H. reflexivity.
  - repeat match goal with
           | |- context [if ?b then _ else _] => destruct b
           end;
      cbn; intros H; inversion H; subst; reflexivity.
Qed.

Lemma options_loop_engine opts :
  forall cfg cfg' w,
    outcome_of (options_loop opts cfg w) = Next cfg' ->
    engine cfg' = chosen_engine (engine cfg) opts.
Proof.
  induction opts as [| [opt optarg] rest IH]; intros cfg cfg' w H.
  - cbn in H. inversion H; subst. reflexivity.
  - cbn [options_loop] in H. rewrite bind_run in H.
    destruct (option_case opt optarg cfg w) as [[[cfg1 | c | ] t] w1] eqn:Hoc;
      cbn in H; try discriminate.
    rewrite (IH cfg1 cfg' w1 H). cbn [chosen_engine].
    rewrite (option_case_engine opt optarg cfg cfg1 w); [reflexivity | ].
    rewrite Hoc. reflexivity.
Qed.

Lemma loop_event_engine cfg name e : loop_event cfg e -> on_engine name e.
Proof.
  destruct e as [m | m | | | | | | | | | | | | ]; try destruct m; cbn; tauto.
Qed.

(** X13.  Both sessions are created on one engine, the one named by the
    last [-e] on the command line, or [npu] when there is none: the pose
    session's context and the probe for a face-detection model never use
    another. *)
Theorem one_engine_for_both_sessions opts positional w :
  Forall (on_engine (chosen_engine "npu" opts))
    (trace_of (main opts positional w)).
Proof.
  destruct (main_cases opts positional w)
    as [[cfg [Hp Hs]] | [m [_ [[_ Ht] | [_ Ht]]]]];
    try (rewrite Ht; repeat constructor).
  pose proof (options_loop_engine opts initial_config cfg w Hp) as He.
  cbn [engine initial_config] in He. rewrite <- He.
  assert (Hstart : forall model fd,
             Forall (on_engine (engine cfg)) (startup_trace cfg model fd)).
  { intros model fd. unfold startup_trace.
    destruct fd; [ | destruct (face_detect cfg)]; repeat constructor. }
  assert (Hloop : forall t, Forall (loop_event cfg) t ->
             Forall (on_engine (engine cfg)) t).
  { intros t. apply Forall_impl. apply loop_event_engine. }
  set (tr := trace_of (main opts positional w)) in *. clearbody tr.
  inversion Hs as [ Hpos Hout Htr
                  | model images err reason Hpos Hout Htr
                  | model images fd t Ht Hpos Hout Htr
                  | model images fd t Ht Hpos Hout Htr
                  | model images fd t Ht Hpos Hout Htr ];
    subst tr.
  - repeat constructor.
  - repeat constructor.
  - apply Forall_app; split; [apply Hstart | apply Hloop; exact Ht].
  - apply Forall_app; split; [apply Hstart | apply Hloop; exact Ht].
  - apply Forall_app; split; [apply Hstart | ].
    apply Forall_app; split; [apply Hloop; exact Ht | ].
    unfold shutdown_trace. destruct fd; repeat constructor.
Qed.


(** ** A session is used only once it is there *)

Lemma first_after {A} (P : A -> Prop) (l1 : list A) :
  forall x l2 pre e post,
    Forall (fun a => ~ P a) l1 -> ~ P x -> P e ->
    l1 ++ x :: l2 = pre ++ e :: post ->
    In x pre.
Proof.
  induction l1 as [| a l1 IH]; intros x l2 pre e post H1 Hx He Heq.
  - destruct pre as [| p pre]; cbn in Heq; inversion Heq; subst.
    + contradiction.
    + left; reflexivity.
  - inversion H1 as [| a' l1' Ha H1']; subst.
    destruct pre as [| p pre]; cbn in Heq; inversion Heq; subst.
    + contradiction.
    + right. eapply IH; eassumption.
Qed.

Lemma never_in {A} (P : A -> Prop) (l pre post : list A) (e : A) :
  Forall (fun a => ~ P a) l -> l = pre ++ e :: post -> P e -> False.
Proof.
  intros Hl -> He. apply Forall_app in Hl. destruct Hl as [_ Hl].
  inversion Hl; contradiction.
Qed.

Lemma face_stage_of_session e : on_face_session e -> face_stage e.
Proof.
  destruct e as [ | | | | c ? ? | c ? ? | c ? ? | | c ? ? ? | c ? | c ? ? ? | c ? | c | ];
    try destruct c; cbn; tauto.
Qed.

(** X14.  The face session is never used unless the probe returned it:
    every call on the face session comes after a successful probe of the
    same run. *)
Theorem face_session_used_only_if_found opts positional w pre e post :
  trace_of (main opts positional w) = pre ++ e :: post ->
  on_face_session e ->
  exists name, In (EvProbe name true) pre.
Proof.
  intros Heq He.
  destruct (main_follows opts positional w)
    as [[cfg [_ Hr]] | [m [_ [[_ Ht] | [_ Ht]]]]].
  - set (r := outcome_of (main opts positional w)) in *.
    set (tr := trace_of (main opts positional w)) in *. clearbody r tr.
    assert (Hnofaces : forall images r0 t0,
               images_trace cfg false images r0 t0 ->
               Forall (fun x => ~ on_face_session x) t0).
    { intros images r0 t0 Hl.
      destruct (single_images cfg images r0 t0 Hl) as [Hf _].
      eapply Forall_impl; [ | exact Hf].
      intros a Ha Hn. apply Ha. apply face_stage_of_session. exact Hn. }
    assert (Hstart : forall model,
               Forall (fun x => ~ on_face_session x) (startup_trace cfg model false)).
    { intros model. unfold startup_trace.
      destruct (face_detect cfg); repeat constructor; cbn; tauto. }
    assert (Hfound : forall model rest,
               startup_trace cfg model true ++ rest = pre ++ e :: post ->
               exists name, In (EvProbe name true) pre).
    { intros model rest Hst. exists (engine cfg).
      apply (first_after on_face_session
               [EvCalloc boxes_buf (max_detection cfg);
                EvCalloc orientations_buf 1; EvCalloc roi_buf 4;
                EvContextCreate (engine cfg); EvLoadModel pose_ctx model 0;
                EvSetI pose_ctx "normalization" (norm cfg)]
               (EvProbe (engine cfg) true)
               ([EvStdout MsgFoundFaceModel;
                 EvSetI faces_ctx "max_detection" (max_detection cfg);
                 EvSetF faces_ctx "score_threshold" (score_thr cfg);
                 EvSetF faces_ctx "iou_threshold" (iou_thr cfg);
                 EvSetI faces_ctx "normalization" 0] ++ rest)
               pre e post);
        [repeat constructor; cbn; tauto | cbn; tauto | exact He | exact Hst]. }
    revert Heq.
    inversion Hr as [ | model images err Hne | model images fd t0 Hfd Hl
                    | model images fd r0 t0 Hfd Hl Hne ]; subst r tr; intros Heq.
    + exfalso. eapply (never_in on_face_session); [ | exact Heq | exact He].
      repeat constructor; cbn; tauto.
    + exfalso. eapply (never_in on_face_session); [ | exact Heq | exact He].
      repeat constructor; cbn; tauto.
    + destruct fd; [exact (Hfound model _ Heq) | ].
      exfalso. eapply (never_in on_face_session); [ | exact Heq | exact He].
      apply Forall_app; split; [apply Hstart | ].
      apply Forall_app; split; [apply (Hnofaces images _ t0 Hl) | ].
      repeat constructor; cbn; tauto.
    + destruct fd; [exact (Hfound model _ Heq) | ].
      exfalso. eapply (never_in on_face_session); [ | exact Heq | exact He].
      apply Forall_app; split; [apply Hstart | apply (Hnofaces images _ t0 Hl)].
  - exfalso. rewrite Ht in Heq.
    eapply (never_in on_face_session); [ | exact Heq | exact He].
    repeat constructor; cbn; tauto.
  - exfalso. rewrite Ht in Heq.
    eapply (never_in on_face_session); [ | exact Heq | exact He].
    repeat constructor; cbn; tauto.
Qed.

(** X15.  The pose session is never configured, fed, run or read unless
    its model loaded: every such call comes after a [vaal_load_model_file]
    of the model named on the command line that returned no error. *)
Theorem pose_session_used_only_with_model opts positional w pre e post :
  trace_of (main opts positional w) = pre ++ e :: post ->
  needs_pose_model e ->
  exists model images,
    positional = model :: images /\ In (EvLoadModel pose_ctx model 0) pre.
Proof.
  intros Heq He.
  destruct (main_cases opts positional w)
    as [[cfg [_ Hs]] | [m [_ [[_ Ht] | [_ Ht]]]]].
  - set (r := outcome_of (main opts positional w)) in *.
    set (tr := trace_of (main opts positional w)) in *. clearbody r tr.
    assert (Hloaded : forall model fd rest,
               startup_trace cfg model fd ++ rest = pre ++ e :: post ->
               In (EvLoadModel pose_ctx model 0) pre).
    { intros model fd rest Hst. unfold startup_trace in Hst.
      rewrite <- app_assoc in Hst.
      eapply (first_after needs_pose_model)
        with (l1 := [EvCalloc boxes_buf (max_detection cfg);
                     EvCalloc orientations_buf 1; EvCalloc roi_buf 4;
                     EvContextCreate (engine cfg)])
             (x := EvLoadModel pose_ctx model 0);
        [repeat constructor; cbn; tauto | cbn; tauto | exact He | exact Hst]. }
    revert Heq.
    inversion Hs as [ Hpos Hout Htr
                    | model images err reason Hpos Hout Htr
                    | model images fd t Ht Hpos Hout Htr
                    | model images fd t Ht Hpos Hout Htr
                    | model images fd t Ht Hpos Hout Htr ]; subst r tr; intros Heq.
    + exfalso. eapply (never_in needs_pose_model); [ | exact Heq | exact He].
      repeat constructor; cbn; tauto.
    + exfalso. eapply (never_in needs_pose_model); [ | exact Heq | exact He].
      repeat constructor; cbn; tauto.
    + exists model, images. split; [reflexivity | exact (Hloaded model fd _ Heq)].
    + exists model, images. split; [reflexivity | exact (Hloaded model fd _ Heq)].
    + exists model, images. split; [reflexivity | exact (Hloaded model fd _ Heq)].
  - exfalso. rewrite Ht in Heq.
    eapply (never_in needs_pose_model); [ | exact Heq | exact He].
    repeat constructor; cbn; tauto.
  - exfalso. rewrite Ht in Heq.
    eapply (never_in needs_pose_model); [ | exact Heq | exact He].
    repeat constructor; cbn; tauto.
Qed.


End Coverage.


(** * Runs with the scripted library *)

Import Script.

Lemma script_boxes_contract : boxes_contract (lib := Script.lib).
Proof.
  intros c buf max_boxes n w Hn. cbn.
  rewrite length_firstn. lia.
Qed.

(** ** The arithmetic of the driver on sample values *)

Example float_bounds_as_doubles :
  double_of_float f0_0 = double_of_int 0 /\
  double_of_float f1_0 = double_of_int 1 /\
  float_of_double (double_of_int 1) = f1_0.
Proof. vm_compute. repeat split. Qed.

Example roi_of_half_width : int_of_float (fmul f0_5 (float_of_int 640)) = 320.
Proof. vm_compute. reflexivity. Qed.

Example roi_truncates :
  int_of_float (fmul (float_of_double (atof "0.3")) (float_of_int 7)) = 2.
Proof. vm_compute. reflexivity. Qed.

Example percent_of_full_score :
  int_of_float (fmul f1_0 (float_of_int 100)) = 100.
Proof. vm_compute. reflexivity. Qed.

Example atoi_samples : atoi "-4" = -4 /\ atoi "25" = 25 /\ atoi "x" = 0.
Proof. vm_compute. repeat split. Qed.

Example store_boxes_keeps_size :
  store_boxes [face f0_0 f0_0; face f0_5 f0_5; face f1_0 f1_0]
              [zero_box; zero_box] =
    [face f0_0 f0_0; face f0_5 f0_5].
Proof. reflexivity. Qed.

(** ** C1: an error of the face session's inference is dropped *)

(** C1 fails on the code.  With the default options, one image and a face
    session whose [vaal_run_model] returns the error 5 for it, [main] does
    not stop: it goes on to [vaal_boxes], runs the pose session on the box
    it gets, prints a line for it and returns [EXIT_SUCCESS]. *)
Theorem face_inference_error_ignored :
  main [] ["m.rtm"; "noisy.png"] start =
    (Return EXIT_SUCCESS,
     [EvCalloc boxes_buf 25; EvCalloc orientations_buf 1; EvCalloc roi_buf 4;
      EvContextCreate "npu";
      EvLoadModel pose_ctx "m.rtm" 0;
      EvSetI pose_ctx "normalization" 0;
      EvProbe "npu" true;
      EvStdout MsgFoundFaceModel;
      EvSetI faces_ctx "max_detection" 25;
      EvSetF faces_ctx "score_threshold" f0_5;
      EvSetF faces_ctx "iou_threshold" f0_5;
      EvSetI faces_ctx "normalization" 0;
      EvStdout MsgBoxHeader;
      EvStdout (MsgResolution 640 480);
      EvLoadImage faces_ctx "noisy.png" None 0;
      EvRunModel faces_ctx 5;
      EvBoxes faces_ctx 25 0 1;
      EvLoadImage pose_ctx "noisy.png" (Some (0, 0, 320, 240)) 0;
      EvRunModel pose_ctx 0;
      EvEuler pose_ctx 0;
      EvStdout (MsgBoxLine 0 100 (face f0_0 f0_0) (mkEuler f0_5 f0_0 f0_0));
      EvRelease faces_ctx; EvRelease pose_ctx;
      EvFree boxes_buf; EvFree orientations_buf; EvFree roi_buf],
     mkWorld 4000 "noisy.png" "noisy.png").
Proof. vm_compute. reflexivity. Qed.

(** The sibling test: the same error from the pose session's inference
    ends the run with [EXIT_FAILURE]. *)
Example pose_inference_error_aborts :
  outcome_of (main [] ["m.rtm"; "dark.png"] start) = Return EXIT_FAILURE /\
  firstn 2 (rev (trace_of (main [] ["m.rtm"; "dark.png"] start))) =
    [EvStderr (MsgFailedRun "error"); EvRunModel pose_ctx 6].
Proof. vm_compute. split; reflexivity. Qed.

(** ** C2: the order of release, and the exits that release nothing *)

(** C2 fails on the code.  [-d model] with no image runs to the end of
    [main]; the buffers are freed in the order of their allocation, not
    in the reverse order. *)
Lemma release_order_not_reversed :
  outcome_of (main [("d"%char, "")] ["m.rtm"] start) = Return EXIT_SUCCESS /\
  acquired (trace_of (main [("d"%char, "")] ["m.rtm"] start)) =
    [Buf boxes_buf; Buf orientations_buf; Buf roi_buf; Session pose_ctx] /\
  released (trace_of (main [("d"%char, "")] ["m.rtm"] start)) =
    [Session pose_ctx; Buf boxes_buf; Buf orientations_buf; Buf roi_buf] /\
  released (trace_of (main [("d"%char, "")] ["m.rtm"] start)) <>
    rev (acquired (trace_of (main [("d"%char, "")] ["m.rtm"] start))).
Proof. vm_compute. repeat split; discriminate. Qed.

(** A model that does not load: the three buffers and the pose session
    are acquired, [main] returns [EXIT_FAILURE] and nothing is released. *)
Example model_refused_leaks :
  outcome_of (main [] ["missing.rtm"; "a.png"] start) = Return EXIT_FAILURE /\
  acquired (trace_of (main [] ["missing.rtm"; "a.png"] start)) =
    [Buf boxes_buf; Buf orientations_buf; Buf roi_buf; Session pose_ctx] /\
  released (trace_of (main [] ["missing.rtm"; "a.png"] start)) = [].
Proof. vm_compute. repeat split. Qed.

Lemma release_on_normal_completion_witness :
  outcome_of (main [] ["m.rtm"; "pair.png"] start) = Return EXIT_SUCCESS /\
  released (trace_of (main [] ["m.rtm"; "pair.png"] start)) =
    [Session faces_ctx; Session pose_ctx;
     Buf boxes_buf; Buf orientations_buf; Buf roi_buf].
Proof.
  split; [vm_compute; reflexivity | ].
  destruct (release_on_normal_completion [] ["m.rtm"; "pair.png"] start)
    as [[Ha _] | [[Ha _] | [_ Hr]]];
    [ vm_compute; reflexivity
    | vm_compute in Ha; discriminate
    | vm_compute in Ha; discriminate
    | exact Hr ].
Defined.

(** ** C3: the settings of a run with [--norm signed] *)

Lemma settings_by_session_witness :
  outcome_of (options_loop [("n"%char, "signed")] initial_config start) =
    Next (set_norm initial_config 4) /\
  settings (trace_of (main [("n"%char, "signed")] ["m.rtm"; "a.png"] start)) =
    [EvSetI pose_ctx "normalization" 4;
     EvSetI faces_ctx "max_detection" 25;
     EvSetF faces_ctx "score_threshold" f0_5;
     EvSetF faces_ctx "iou_threshold" f0_5;
     EvSetI faces_ctx "normalization" 0].
Proof.
  assert (Hp : outcome_of (options_loop [("n"%char, "signed")] initial_config start) =
               Next (set_norm initial_config 4)) by reflexivity.
  split; [exact Hp | ].
  destruct (settings_by_session [("n"%char, "signed")] ["m.rtm"; "a.png"] start
              (set_norm initial_config 4) Hp) as [H | [H | H]];
    [ vm_compute in H; discriminate
    | vm_compute in H; discriminate
    | exact H ].
Defined.

(** ** C4: the probe finds no model for the engine [cpu] *)

Lemma probe_failure_degrades_witness :
  outcome_of (main [("e"%char, "cpu")] ["m.rtm"; "a.png"] start) =
    Return EXIT_SUCCESS /\
  trace_of (main [("e"%char, "cpu")] ["m.rtm"; "a.png"] start) =
    [EvCalloc boxes_buf 25; EvCalloc orientations_buf 1; EvCalloc roi_buf 4;
     EvContextCreate "cpu";
     EvLoadModel pose_ctx "m.rtm" 0;
     EvSetI pose_ctx "normalization" 0;
     EvProbe "cpu" false;
     EvStdout MsgUnableToLocate] ++
    trace_of (for_each ["a.png"] single_stage
                (initial_locals (set_engine initial_config "cpu")) start) ++
    [EvRelease pose_ctx; EvFree boxes_buf; EvFree orientations_buf; EvFree roi_buf].
Proof.
  rewrite (probe_failure_degrades [("e"%char, "cpu")] "m.rtm" ["a.png"] start
             (set_engine initial_config "cpu") start start);
    try reflexivity.
  split; reflexivity.
Defined.

(** ** C5 and C6: the examples of the specification *)

Lemma threshold_clamped_witness :
  option_case "t" "-0.3" initial_config start =
    (Next (set_score_thr initial_config f0_0), [], start) /\
  option_case "u" "1.7" initial_config start =
    (Next (set_iou_thr initial_config f1_0), [], start).
Proof.
  split.
  - destruct (threshold_clamped "-0.3" initial_config start)
      as (v & Ht & _ & Hneg & _).
    rewrite Ht, (Hneg ltac:(vm_compute; reflexivity)). reflexivity.
  - destruct (threshold_clamped "1.7" initial_config start)
      as (v & _ & Hu & _ & Habove & _).
    rewrite Hu, (Habove ltac:(vm_compute; reflexivity)). reflexivity.
Defined.

Lemma max_detection_floor_witness :
  option_case "m" "-4" initial_config start =
    (Next (set_max_detection initial_config 1), [], start) /\
  option_case "m" "7" initial_config start =
    (Next (set_max_detection initial_config 7), [], start).
Proof.
  split.
  - destruct (max_detection_floor "-4" initial_config start)
      as (v & Hm & Hle & _).
    rewrite Hm, (Hle ltac:(vm_compute; discriminate)). reflexivity.
  - destruct (max_detection_floor "7" initial_config start)
      as (v & Hm & _ & Hge & _).
    rewrite Hm, (Hge ltac:(vm_compute; discriminate)). reflexivity.
Defined.

(** ** C7 and C8: usage errors *)

Lemma unsupported_norm_fails_witness :
  main [("t"%char, "0.3"); ("n"%char, "foo"); ("d"%char, "")]
       ["m.rtm"; "a.png"] start =
    (Return EXIT_FAILURE, [EvStderr (MsgUnsupportedNorm "foo")], start).
Proof.
  apply (unsupported_norm_fails [("t"%char, "0.3")] "foo" [("d"%char, "")]
           ["m.rtm"; "a.png"] start
           (set_score_thr initial_config (S754_finite false 10066330 (-25)))).
  - cbn. intros [H | [H | [H | [H | [H | []]]]]]; discriminate.
  - vm_compute. reflexivity.
Defined.

Lemma missing_model_fails_witness :
  main [("d"%char, "")] [] start =
    (Return EXIT_FAILURE, [EvStderr MsgMissingModel], start).
Proof.
  apply (missing_model_fails [("d"%char, "")] start
           (set_face_detect initial_config false)).
  reflexivity.
Defined.

(** ** C9: a missing image among three *)

Lemma first_failed_load_ends_run_witness :
  outcome_of (main [("d"%char, "")] ["m.rtm"; "a.png"; "missing.png"; "b.png"] start) =
    Return EXIT_FAILURE /\
  skipn 11 (trace_of (main [("d"%char, "")]
                        ["m.rtm"; "a.png"; "missing.png"; "b.png"] start)) =
    [EvStderr (MsgFailedLoad "missing.png" (vaal_strerror 2))].
Proof.
  apply (first_failed_load_ends_run
           [("d"%char, "")] ["m.rtm"; "a.png"; "missing.png"; "b.png"] start
           (firstn 10 (trace_of (main [("d"%char, "")]
                                   ["m.rtm"; "a.png"; "missing.png"; "b.png"] start)))
           pose_ctx "missing.png" None 2).
  - vm_compute. reflexivity.
  - discriminate.
Defined.

(** ** C10: the scripted detector keeps to the capacity *)

Lemma boxes_within_capacity_witness :
  boxes_contract (lib := Script.lib) /\
  outcome_of (main [("m"%char, "1")] ["m.rtm"; "pair.png"] start) <> Fault /\
  Forall (box_event_within 1)
    (trace_of (main [("m"%char, "1")] ["m.rtm"; "pair.png"] start)).
Proof.
  split; [exact script_boxes_contract | ].
  destruct (boxes_within_capacity [("m"%char, "1")] ["m.rtm"; "pair.png"] start
              script_boxes_contract) as [Hsafe Hev].
  split; [exact Hsafe | ].
  apply (Hev (set_max_detection initial_config 1)). reflexivity.
Defined.

(** ** Further runs with the scripted library *)

(** A pose inference that fails on the second of three images. *)
Lemma checked_failure_is_final_witness :
  outcome_of (main [("d"%char, "")] ["m.rtm"; "a.png"; "dark.png"; "b.png"] start) =
    Return EXIT_FAILURE /\
  skipn 12 (trace_of (main [("d"%char, "")]
                        ["m.rtm"; "a.png"; "dark.png"; "b.png"] start)) =
    [EvStderr (MsgFailedRun (vaal_strerror 6))].
Proof.
  apply (checked_failure_is_final
           [("d"%char, "")] ["m.rtm"; "a.png"; "dark.png"; "b.png"] start
           (firstn 11 (trace_of (main [("d"%char, "")]
                                   ["m.rtm"; "a.png"; "dark.png"; "b.png"] start)))
           (EvRunModel pose_ctx 6)).
  - vm_compute. reflexivity.
  - reflexivity.
Defined.

Lemma no_detect_skips_faces_witness :
  Forall (fun e => ~ face_stage e)
    (trace_of (main [("m"%char, "3"); ("d"%char, "")] ["m.rtm"; "pair.png"] start)) /\
  outcome_of (main [("m"%char, "3"); ("d"%char, "")] ["m.rtm"; "pair.png"] start) <>
    Fault.
Proof.
  apply (no_detect_skips_faces [("m"%char, "3"); ("d"%char, "")] ""
           ["m.rtm"; "pair.png"] start).
  right; left; reflexivity.
Defined.


(** The third image is missing: the first two are loaded, in order. *)
Lemma images_loaded_in_order_witness :
  exists rest,
    ["a.png"; "pair.png"; "missing.png"; "b.png"] =
      whole_loads (trace_of (main [] ["m.rtm"; "a.png"; "pair.png"; "missing.png"; "b.png"]
                               start)) ++ rest /\
    (outcome_of (main [] ["m.rtm"; "a.png"; "pair.png"; "missing.png"; "b.png"] start) =
       Return EXIT_SUCCESS -> rest = []).
Proof.
  apply (images_loaded_in_order [] "m.rtm"
           ["a.png"; "pair.png"; "missing.png"; "b.png"] start initial_config).
  reflexivity.
Defined.

Example images_loaded_before_the_missing_one :
  whole_loads (trace_of (main [] ["m.rtm"; "a.png"; "pair.png"; "missing.png"; "b.png"]
                           start)) =
    ["a.png"; "pair.png"; "missing.png"].
Proof. vm_compute. reflexivity. Qed.

Example boxes_of_a_pair :
  box_counts (trace_of (main [] ["m.rtm"; "a.png"; "pair.png"; "empty.png"] start)) =
    [1; 2; 0]%nat /\
  box_indices (trace_of (main [] ["m.rtm"; "a.png"; "pair.png"; "empty.png"] start)) =
    [0; 0; 1]%nat.
Proof. vm_compute. split; reflexivity. Qed.

Lemma nothing_after_release_witness :
  outcome_of (main [("d"%char, "")] ["m.rtm"] start) = Return EXIT_SUCCESS /\
  Forall (fun x => releases x <> None)
    (skipn 7 (trace_of (main [("d"%char, "")] ["m.rtm"] start))).
Proof.
  apply (nothing_after_release [("d"%char, "")] ["m.rtm"] start
           (firstn 6 (trace_of (main [("d"%char, "")] ["m.rtm"] start)))
           (EvRelease pose_ctx)).
  - vm_compute. reflexivity.
  - discriminate.
Defined.

Lemma sessions_configured_first_witness :
  Forall (fun x => ~ uses_session x)
    (firstn 11 (trace_of (main [] ["m.rtm"; "a.png"] start))).
Proof.
  apply (sessions_configured_first [] ["m.rtm"; "a.png"] start
           (firstn 11 (trace_of (main [] ["m.rtm"; "a.png"] start)))
           (EvSetI faces_ctx "normalization" 0)
           (skipn 12 (trace_of (main [] ["m.rtm"; "a.png"] start)))).
  - vm_compute. reflexivity.
  - discriminate.
Defined.

Lemma help_and_version_exit_witness :
  main [("m"%char, "3"); ("h"%char, ""); ("n"%char, "foo")] [] start =
    (Return EXIT_SUCCESS, [EvStdout USAGE], start) /\
  main [("m"%char, "3"); ("v"%char, ""); ("n"%char, "foo")] [] start =
    (Return EXIT_SUCCESS, [EvStdout (MsgVersion "1.0")], start).
Proof.
  assert (Hp : outcome_of (options_loop [("m"%char, "3")] initial_config start) =
               Next (set_max_detection initial_config 3)) by reflexivity.
  exact (help_and_version_exit [("m"%char, "3")] "" [("n"%char, "foo")] [] start
           (set_max_detection initial_config 3) Hp).
Defined.

Lemma invalid_option_fails_witness :
  main [("d"%char, ""); ("?"%char, ""); ("h"%char, "")] ["m.rtm"] start =
    (Return EXIT_FAILURE, [EvStderr (MsgInvalidParameter "?")], start).
Proof.
  apply (invalid_option_fails [("d"%char, "")] "?" "" [("h"%char, "")]
           ["m.rtm"] start (set_face_detect initial_config false)).
  - cbn. intros [H | [H | [H | [H | [H | [H | [H | [H | []]]]]]]]]; discriminate.
  - reflexivity.
Defined.

Example engine_of_the_last_option :
  chosen_engine "npu" [("e"%char, "cpu"); ("d"%char, ""); ("e"%char, "gpu")] = "gpu" /\
  chosen_engine "npu" [("d"%char, "")] = "npu".
Proof. split; reflexivity. Qed.

Lemma face_session_used_only_if_found_witness :
  exists name,
    In (EvProbe name true)
       (firstn 14 (trace_of (main [] ["m.rtm"; "a.png"] start))).
Proof.
  apply (face_session_used_only_if_found [] ["m.rtm"; "a.png"] start
           (firstn 14 (trace_of (main [] ["m.rtm"; "a.png"] start)))
           (EvLoadImage faces_ctx "a.png" None 0)
           (skipn 15 (trace_of (main [] ["m.rtm"; "a.png"] start)))).
  - vm_compute. reflexivity.
  - exact I.
Defined.

Lemma pose_session_used_only_with_model_witness :
  exists model images,
    ["m.rtm"; "a.png"] = model :: images /\
    In (EvLoadModel pose_ctx model 0)
       (firstn 5 (trace_of (main [] ["m.rtm"; "a.png"] start))).
Proof.
  apply (pose_session_used_only_with_model [] ["m.rtm"; "a.png"] start
           (firstn 5 (trace_of (main [] ["m.rtm"; "a.png"] start)))
           (EvSetI pose_ctx "normalization" 0)
           (skipn 6 (trace_of (main [] ["m.rtm"; "a.png"] start)))).
  - vm_compute. reflexivity.
  - exact I.
Defined.
